(** * Spektrometr2: the Pixelink sample programs, embedded and verified

    Five parts of the repository are embedded here:

    - [CountImages]: the frame callback of [countImagesViaCallback.cpp]
      with its lost-frame accounting, and the set-up steps of its [main];
    - [ImageWriter]: the capture pipeline of [imageWriter.cpp] (main thread,
      source thread, sink thread) as an interleaving transition system over
      the program's global variables;
    - [ConfigFile]: [WriteConfigFile] and [ReadConfigFile] of
      [captureOEM/src/helpers.cpp] over a buffer of 32-bit cells;
    - [FileNames]: [IncrementFileName] and [ReplaceFileExtension] of
      [captureOEM/src/helpers.cpp] over [std::string] positions;
    - [ComboBox]: the class [PxLComboBox] of [captureOEM/src/helpers.cpp].

    Machine integers are [Z] with the wrap-around written out. *)

From stdpp Require Import base numbers list option.
From Stdlib Require Import ZArith Lia Bool List Sorted.
From Stdlib Require Ascii.
Import ListNotations.
Local Open Scope Z_scope.

(** ** Machine integers *)

(** [U32]: reduction modulo 2^32. *)
Definition wrap32 (z : Z) : Z := z mod 2 ^ 32.

(** Conversion of a 32-bit pattern to [int] (two's complement). *)
Definition to_int32 (z : Z) : Z :=
  let r := wrap32 z in if r <? 2 ^ 31 then r else r - 2 ^ 32.

Definition INT_MIN : Z := - 2 ^ 31.
Definition INT_MAX : Z := 2 ^ 31 - 1.

Lemma wrap32_small z : 0 <= z < 2 ^ 32 -> wrap32 z = z.
Proof. intros H. unfold wrap32. apply Z.mod_small. exact H. Qed.

Lemma wrap32_range z : 0 <= wrap32 z < 2 ^ 32.
Proof. unfold wrap32. apply Z.mod_pos_bound. lia. Qed.

Lemma to_int32_id z : INT_MIN <= z <= INT_MAX -> to_int32 z = z.
Proof.
  unfold INT_MIN, INT_MAX, to_int32, wrap32. intros H.
  destruct (Z_lt_le_dec z 0) as [Hneg | Hpos].
  - replace (z mod 2 ^ 32) with (z + 2 ^ 32).
    + destruct (Z.ltb_spec (z + 2 ^ 32) (2 ^ 31)); lia.
    + apply Z.mod_unique with (q := -1); lia.
  - rewrite Z.mod_small by lia.
    destruct (Z.ltb_spec z (2 ^ 31)); lia.
Qed.

(** ** countImagesViaCallback.cpp *)

Module CountImages.

(** The globals shared between the main thread and the callback. *)
Record Globals := {
  gFrameCount : Z;            (* U32 *)
  gLostFrameCount : Z;        (* int *)
  gExpectedFrameNum : Z;      (* U32 *)
  gReceivedFirstFrame : bool
}.

(** Static initialisation: [gFrameCount = 0], [gLostFrameCount = 0],
    [gReceivedFirstFrame = FALSE]; [gExpectedFrameNum] is zero-initialised
    and "only valid after we receive our first frame". *)
Definition globals0 : Globals :=
  {| gFrameCount := 0; gLostFrameCount := 0;
     gExpectedFrameNum := 0; gReceivedFirstFrame := false |}.

(** [FrameCallbackFunction], as a function of [pFrameDesc->uFrameNumber]
    and the globals (the mutex makes the body atomic).  The decrement of
    the [int] counter is modelled with two's-complement wrap-around; the
    addition of the [U32] delta is unsigned and converted back to [int]. *)
Definition FrameCallbackFunction (uFrameNumber : Z) (g : Globals) : Globals :=
  let expected0 :=
    if gReceivedFirstFrame g then gExpectedFrameNum g else uFrameNumber in
  let count := wrap32 (gFrameCount g + 1) in
  if uFrameNumber <? expected0 then
    {| gFrameCount := count;
       gLostFrameCount := to_int32 (gLostFrameCount g - 1);
       gExpectedFrameNum := expected0;
       gReceivedFirstFrame := true |}
  else
    let frameNumDelta := wrap32 (uFrameNumber - expected0) in
    {| gFrameCount := count;
       gLostFrameCount := to_int32 (gLostFrameCount g + frameNumDelta);
       gExpectedFrameNum := wrap32 (uFrameNumber + 1);
       gReceivedFirstFrame := true |}.

(** The callback invoked once per delivered frame, in delivery order. *)
Definition deliver (frames : list Z) (g : Globals) : Globals :=
  fold_left (fun acc n => FrameCallbackFunction n acc) frames g.

Example gap_1245 : gLostFrameCount (deliver [1; 2; 4; 5] globals0) = 1.
Proof. reflexivity. Qed.

(** C2: delivering the sequence numbers 1,3,2,4 from the initial globals,
    the lost-frame count is 1 right after frame 3, back to 0 right after
    the late frame 2, and still 0 after frame 4. *)
Theorem late_arrival_1324 :
  gLostFrameCount (deliver [1; 3] globals0) = 1 /\
  gLostFrameCount (deliver [1; 3; 2] globals0) = 0 /\
  gLostFrameCount (deliver [1; 3; 2; 4] globals0) = 0.
Proof. repeat split; reflexivity. Qed.

(** C10: once the first frame has been received, a callback whose sequence
    number is strictly below the expected tracker decrements the lost-frame
    count by one (the count being a representable [int] above [INT_MIN],
    where the C++ decrement is defined) and leaves the tracker unchanged;
    hence the duplicated delivery 1,2,2 ends with a lost count of -1. *)
Theorem late_frame_decrements :
  (forall (g : Globals) (n : Z),
      gReceivedFirstFrame g = true ->
      n < gExpectedFrameNum g ->
      INT_MIN < gLostFrameCount g <= INT_MAX ->
      gLostFrameCount (FrameCallbackFunction n g) = gLostFrameCount g - 1 /\
      gExpectedFrameNum (FrameCallbackFunction n g) = gExpectedFrameNum g) /\
  gLostFrameCount (deliver [1; 2; 2] globals0) = -1.
Proof.
  split; [| reflexivity].
  intros g n Hfirst Hlt Hrange.
  unfold FrameCallbackFunction. rewrite Hfirst.
  destruct (Z.ltb_spec n (gExpectedFrameNum g)) as [_ | Hge]; [| lia].
  simpl. split; [| reflexivity].
  apply to_int32_id. unfold INT_MIN, INT_MAX in *. lia.
Qed.

Lemma late_frame_decrements_witness :
  let g := deliver [1; 3] globals0 in
  gLostFrameCount (FrameCallbackFunction 2 g) = gLostFrameCount g - 1 /\
  gExpectedFrameNum (FrameCallbackFunction 2 g) = gExpectedFrameNum g.
Proof.
  apply (proj1 late_frame_decrements (deliver [1; 3] globals0) 2).
  - reflexivity.
  - vm_compute. reflexivity.
  - vm_compute. split; [reflexivity | discriminate].
Defined.

(** *** Accounting identities of the callback *)

Lemma wrap32_to_int32 z : wrap32 (to_int32 z) = wrap32 z.
Proof.
  unfold to_int32, wrap32. cbv zeta.
  destruct (z mod 2 ^ 32 <? 2 ^ 31).
  - apply Z.mod_mod. discriminate.
  - replace (z mod 2 ^ 32 - 2 ^ 32) with (z mod 2 ^ 32 + -1 * 2 ^ 32) by ring.
    rewrite Z.mod_add by discriminate. apply Z.mod_mod. discriminate.
Qed.

Lemma to_int32_wrap32 x y : wrap32 x = wrap32 y -> to_int32 x = to_int32 y.
Proof. unfold to_int32. intros ->. reflexivity. Qed.

Lemma wrap32_add_l a b : wrap32 (wrap32 a + b) = wrap32 (a + b).
Proof. unfold wrap32. apply Z.add_mod_idemp_l. discriminate. Qed.

Lemma wrap32_add_r a b : wrap32 (a + wrap32 b) = wrap32 (a + b).
Proof. unfold wrap32. apply Z.add_mod_idemp_r. discriminate. Qed.

(** Received plus lost equals the span of sequence numbers seen, counted
    from the first frame (all counters modulo 2^32). *)
Definition balanced (first : Z) (g : Globals) : Prop :=
  gReceivedFirstFrame g = true /\
  wrap32 (gLostFrameCount g + gFrameCount g)
  = wrap32 (gExpectedFrameNum g - first).

Lemma callback_balanced first n g :
  balanced first g -> balanced first (FrameCallbackFunction n g).
Proof.
  intros [Hrec Hbal]. unfold balanced, FrameCallbackFunction.
  rewrite Hrec.
  destruct (n <? gExpectedFrameNum g); simpl; (split; [reflexivity |]).
  - rewrite <- wrap32_add_l, wrap32_to_int32, wrap32_add_l.
    rewrite wrap32_add_r.
    replace (gLostFrameCount g - 1 + (gFrameCount g + 1))
      with (gLostFrameCount g + gFrameCount g) by ring.
    exact Hbal.
  - rewrite <- wrap32_add_l, wrap32_to_int32, wrap32_add_l.
    rewrite wrap32_add_r.
    replace (gLostFrameCount g + wrap32 (n - gExpectedFrameNum g)
             + (gFrameCount g + 1))
      with (wrap32 (n - gExpectedFrameNum g)
            + (gLostFrameCount g + gFrameCount g + 1)) by ring.
    rewrite wrap32_add_l.
    replace (n - gExpectedFrameNum g + (gLostFrameCount g + gFrameCount g + 1))
      with ((gLostFrameCount g + gFrameCount g)
            + (n - gExpectedFrameNum g + 1)) by ring.
    rewrite <- wrap32_add_l, Hbal, wrap32_add_l.
    replace (wrap32 (n + 1) - first) with (wrap32 (n + 1) + - first) by ring.
    rewrite wrap32_add_l. f_equal. ring.
Qed.

Lemma deliver_balanced first frames g :
  balanced first g -> balanced first (deliver frames g).
Proof.
  revert g. induction frames as [| n frames IH]; intros g Hg; simpl.
  - exact Hg.
  - apply IH. apply callback_balanced. exact Hg.
Qed.

(** X1: whatever the order, the gaps and the repetitions of the sequence
    numbers delivered, after any non-empty delivery the frames received plus
    the frames counted lost equal the expected tracker minus the first
    sequence number, modulo 2^32. *)
Theorem received_plus_lost (n0 : Z) (rest : list Z) :
  let g := deliver (n0 :: rest) globals0 in
  wrap32 (gLostFrameCount g + gFrameCount g)
  = wrap32 (gExpectedFrameNum g - n0).
Proof.
  cbv zeta. change (deliver (n0 :: rest) globals0)
    with (deliver rest (FrameCallbackFunction n0 globals0)).
  apply deliver_balanced.
  unfold balanced, FrameCallbackFunction. simpl.
  rewrite Z.ltb_irrefl. simpl. split; [reflexivity |].
  rewrite Z.sub_diag.
  change (to_int32 (0 + wrap32 0)) with 0. change (wrap32 (0 + 1)) with 1.
  replace (wrap32 (n0 + 1) - n0) with (wrap32 (n0 + 1) + - n0) by ring.
  rewrite wrap32_add_l. f_equal. ring.
Qed.

(** X2: a frame that arrives late leaves no trace: when sequence numbers
    [a < b] are both at or after the expected tracker, delivering [b] before
    [a] leaves the globals exactly as delivering [a] before [b] does. *)
Theorem late_arrival_commutes (g : Globals) (a b : Z) :
  gReceivedFirstFrame g = true ->
  0 <= gExpectedFrameNum g <= a ->
  a < b < 2 ^ 32 - 1 ->
  deliver [b; a] g = deliver [a; b] g.
Proof.
  intros Hrec Ha Hb. unfold deliver. simpl.
  unfold FrameCallbackFunction at 2 4. rewrite Hrec.
  destruct (Z.ltb_spec b (gExpectedFrameNum g)); [lia |].
  destruct (Z.ltb_spec a (gExpectedFrameNum g)); [lia |].
  unfold FrameCallbackFunction. simpl.
  rewrite (wrap32_small (b + 1)) by lia.
  rewrite (wrap32_small (a + 1)) by lia.
  destruct (Z.ltb_spec a (b + 1)); [| lia].
  destruct (Z.ltb_spec b (a + 1)); [lia |].
  f_equal. apply to_int32_wrap32.
  replace (to_int32 (gLostFrameCount g + wrap32 (b - gExpectedFrameNum g)) - 1)
    with (to_int32 (gLostFrameCount g + wrap32 (b - gExpectedFrameNum g))
          + -1) by ring.
  rewrite <- wrap32_add_l, wrap32_to_int32, wrap32_add_l.
  rewrite <- (wrap32_add_l (to_int32 _)), wrap32_to_int32, wrap32_add_l.
  rewrite wrap32_add_r.
  replace (gLostFrameCount g + wrap32 (b - gExpectedFrameNum g) + -1)
    with (wrap32 (b - gExpectedFrameNum g) + (gLostFrameCount g - 1))
    by ring.
  replace (gLostFrameCount g + wrap32 (a - gExpectedFrameNum g)
           + (b - (a + 1)))
    with (wrap32 (a - gExpectedFrameNum g)
          + (gLostFrameCount g + (b - (a + 1)))) by ring.
  rewrite !wrap32_add_l. f_equal. ring.
Qed.

Lemma late_arrival_commutes_witness :
  deliver [5; 4] (deliver [1; 2] globals0)
  = deliver [4; 5] (deliver [1; 2] globals0).
Proof.
  apply (late_arrival_commutes (deliver [1; 2] globals0) 4 5).
  - reflexivity.
  - vm_compute. split; discriminate.
  - vm_compute. split; reflexivity.
Defined.

(** *** main, Steps 1 to 3 *)

Definition A_OK : Z := 0.
Definition GENERAL_ERROR : Z := 1.

Inductive Output :=
| MsgCannotCreateMutex
| MsgCouldNotInitialize (pxlRc : Z)
| MsgCouldNotSetCallback
| MsgCouldNotStartStream
| MsgLookingForLostFrames.

(** What the calls of Steps 1 to 3 return. *)
Record Answers := {
  pthread_mutex_init : Z;
  PxLInitialize : Z;
  PxLSetCallback : Z;
  PxLSetStreamState : Z
}.

(** Where Steps 1 to 3 lead: to the label [AllDone] with the value of
    [rc], or into the reporting loop of Step 4. *)
Inductive Stage :=
| AllDone (rc : Z)
| Reporting.

Section Main.

(** The macro [API_SUCCESS] of the vendor's header. *)
Variable API_SUCCESS : Z -> bool.

(** Steps 1 to 3 of [main]: what is printed, and where control goes.  The
    code returned by [PxLSetStreamState] is stored in [pxlRc]; the test
    that follows reads [rc], which holds the code returned by
    [PxLSetCallback]. *)
Definition main_setup (a : Answers) : list Output * Stage :=
  let rc := A_OK in
  if negb (pthread_mutex_init a =? 0)
  then ([MsgCannotCreateMutex], AllDone GENERAL_ERROR)
  else
    let pxlRc := PxLInitialize a in
    if negb (API_SUCCESS pxlRc)
    then ([MsgCouldNotInitialize pxlRc], AllDone GENERAL_ERROR)
    else
      let rc := PxLSetCallback a in
      if negb (API_SUCCESS rc)
      then ([MsgCouldNotSetCallback], AllDone GENERAL_ERROR)
      else
        let pxlRc := PxLSetStreamState a in
        if negb (API_SUCCESS rc)
        then ([MsgCouldNotStartStream], AllDone GENERAL_ERROR)
        else ([MsgLookingForLostFrames], Reporting).

(** X20: a stream that does not start is not noticed.  Whatever the calls
    return, "Could not start the stream" is never printed; and the
    reporting loop is entered exactly when the mutex, the camera and the
    callback were set up, whether [PxLSetStreamState] succeeded or not. *)
Theorem start_failure_unnoticed (a : Answers) :
  ~ In MsgCouldNotStartStream (fst (main_setup a)) /\
  (snd (main_setup a) = Reporting <->
   pthread_mutex_init a = 0 /\
   API_SUCCESS (PxLInitialize a) = true /\
   API_SUCCESS (PxLSetCallback a) = true).
Proof.
  unfold main_setup.
  destruct (Z.eqb_spec (pthread_mutex_init a) 0) as [Hm | Hm]; simpl.
  2:{ split; [intros [H | []]; discriminate H |].
      split; [discriminate | intros (H & _); contradiction]. }
  destruct (API_SUCCESS (PxLInitialize a)); simpl.
  2:{ split; [intros [H | []]; discriminate H |].
      split; [discriminate | intros (_ & H & _); discriminate H]. }
  destruct (API_SUCCESS (PxLSetCallback a)); simpl.
  2:{ split; [intros [H | []]; discriminate H |].
      split; [discriminate | intros (_ & _ & H); discriminate H]. }
  split; [intros [H | []]; discriminate H |].
  split; [auto | reflexivity].
Qed.

End Main.

End CountImages.

(** ** imageWriter.cpp *)

(** The sample computes the frame size with single-precision arithmetic,
    [(U32) (Roi.fWidth * Roi.fHeight)].  The [float] type, its product and
    the conversion to [U32] are kept abstract. *)
Class Float32 := {
  F32 : Type;
  f32_mul : F32 -> F32 -> F32;
  f32_to_U32 : F32 -> Z
}.

Module ImageWriter.

Definition BUFFER_SIZE : Z := Z.shiftl 1 4.
Definition BUFFER_SIZE_MASK : Z := BUFFER_SIZE - 1.
Definition MAX_IMAGE_SIZE : Z := 25 * 1024 * 1024.
Definition MAX_IMAGES : Z := 32.

Inductive RUNTIME_STATUS :=
| STATUS_RUNNING
| STATUS_USER_STOPPED
| STATUS_SINK_OVERRUN
| STATUS_ERROR.

Definition is_running (st : RUNTIME_STATUS) : bool :=
  match st with STATUS_RUNNING => true | _ => false end.

(** What the program prints, one constructor per [printf]. *)
Inductive Msg :=
| MsgExactlyOneCamera
| MsgCouldNotInitialize
| MsgCouldNotStream
| MsgCapturing
| MsgNoInitialFrame
| MsgCouldNotGetFrame
| MsgExpectedFrame (expected got : Z)
| MsgSinkCannotKeepUp
| MsgCouldNotOpen
| MsgCouldNotWrite (wanted wrote : Z).

(** Control points of the three threads.  A thread is cut at its blocking
    calls, at the head of its loop, and in [main] and in the sink thread
    before every statement that reads or writes [s_status] or
    [s_frameQueue]; a call that touches nothing shared ([kbhit], [fopen],
    [fwrite], [printf]) is joined with the access to [s_status] that
    follows it.  The source thread is cut at its blocking calls and at its
    loop test only: what it does once [PxLGetNextFrame] has returned (the
    comparison of frame numbers, the test of [size], the [push_back] or
    the store to [s_status]) is one transition.  What a thread does
    between two control points is one transition, and the shared globals
    are read and written in the order of the interleaving.  The code has
    no lock: each call on the shared vector ([size], [push_back], [empty],
    [operator[]], [erase]) is taken as one indivisible access, and what two
    overlapping calls do to the vector is outside this model. *)
Inductive MainPc :=
| MainEnumerate                (* before PxLGetNumberCamerasEx *)
| MainInitialize               (* before PxLInitializeEx *)
| MainStartStream              (* before PxLSetStreamState START_STREAM *)
| MainWait                     (* threads created, in usleep (500 ms) *)
| MainLoop                     (* at the test of the kbhit loop *)
| MainPolling                  (* in the loop, at kbhit *)
| MainStopStream               (* before PxLSetStreamState STOP_STREAM *)
| MainSleep                    (* in usleep (1000 ms) *)
| MainExited (code : Z)        (* main has returned *)
| MainKilled.                  (* the process was killed *)

Inductive SourcePc :=
| SourceIdle                   (* thread not created *)
| SourceAwaitingFirst          (* in the first PxLGetNextFrame *)
| SourceStreaming              (* at the head of the while loop *)
| SourceAcquiring (slot : Z)   (* in the loop's PxLGetNextFrame on pFrame *)
| SourceStopped.               (* at pthread_exit *)

Inductive SinkPc :=
| SinkIdle                     (* thread not created *)
| SinkOpening                  (* in fopen *)
| SinkDraining                 (* at the test of the while loop *)
| SinkChecking                 (* in the loop, at s_frameQueue.empty () *)
| SinkFetching                 (* at pFrame = s_frameQueue[0] *)
| SinkErasing (slot : Z)       (* at s_frameQueue.erase, pFrame read *)
| SinkWriting (slot : Z)       (* in fwrite of the popped pFrame *)
| SinkClosingNull              (* at fclose (dataFile), dataFile NULL *)
| SinkStopped.                 (* at pthread_exit *)

(** What the environment answers at each control point. *)
Inductive MainEv :=
| GetNumberCameras (ok : bool) (numCameras : Z)
| Initialize (ok : bool)
| StartStream (ok : bool)
| Slept
| LoopTest
| Kbhit (pressed : bool)
| StopStream.

Inductive SinkEv :=
| Fopen (ok : bool)
| SinkLoop
| SinkEmpty
| SinkFront
| SinkErase
| Fwrite (numBytesWritten : Z)
| Fclose.

Section Pipeline.
Context {FL : Float32}.

Record PXL_ROI := { fWidth : F32; fHeight : F32 }.

Record FRAME_DESC := {
  uFrameNumber : Z;
  Roi : PXL_ROI
}.

(** [GetNextFrame None]: the call failed; [GetNextFrame (Some d)]: it
    succeeded and filled the descriptor with [d]. *)
Inductive SourceEv :=
| GetNextFrame (r : option FRAME_DESC)
| SourceLoop.

Inductive Event :=
| EvMain (e : MainEv)
| EvSource (e : SourceEv)
| EvSink (e : SinkEv).

(** The globals of the program, the control points of its threads, the
    locals of the sink thread, the output file, the console, and two
    histories: the frames acquired (slot, descriptor) and the [fwrite]
    calls made (slot, bytes requested, bytes written), oldest first. *)
Record State := mkState {
  s_status : RUNTIME_STATUS;
  s_tail : Z;
  s_expectedFrameNumber : Z;
  s_frameSize : Z;
  s_frames : list (option FRAME_DESC);
  s_frameQueue : list Z;
  main_pc : MainPc;
  source_pc : SourcePc;
  sink_pc : SinkPc;
  numFramesInFile : Z;
  file_pos : Z;
  file_size : Z;
  console : list Msg;
  acquired : list (Z * FRAME_DESC);
  written : list (Z * Z * Z)
}.

Definition set_status v s :=
  mkState v (s_tail s) (s_expectedFrameNumber s) (s_frameSize s) (s_frames s)
    (s_frameQueue s) (main_pc s) (source_pc s) (sink_pc s) (numFramesInFile s)
    (file_pos s) (file_size s) (console s) (acquired s) (written s).
Definition set_tail v s :=
  mkState (s_status s) v (s_expectedFrameNumber s) (s_frameSize s) (s_frames s)
    (s_frameQueue s) (main_pc s) (source_pc s) (sink_pc s) (numFramesInFile s)
    (file_pos s) (file_size s) (console s) (acquired s) (written s).
Definition set_expectedFrameNumber v s :=
  mkState (s_status s) (s_tail s) v (s_frameSize s) (s_frames s)
    (s_frameQueue s) (main_pc s) (source_pc s) (sink_pc s) (numFramesInFile s)
    (file_pos s) (file_size s) (console s) (acquired s) (written s).
Definition set_frameSize v s :=
  mkState (s_status s) (s_tail s) (s_expectedFrameNumber s) v (s_frames s)
    (s_frameQueue s) (main_pc s) (source_pc s) (sink_pc s) (numFramesInFile s)
    (file_pos s) (file_size s) (console s) (acquired s) (written s).
Definition set_frames v s :=
  mkState (s_status s) (s_tail s) (s_expectedFrameNumber s) (s_frameSize s) v
    (s_frameQueue s) (main_pc s) (source_pc s) (sink_pc s) (numFramesInFile s)
    (file_pos s) (file_size s) (console s) (acquired s) (written s).
Definition set_frameQueue v s :=
  mkState (s_status s) (s_tail s) (s_expectedFrameNumber s) (s_frameSize s)
    (s_frames s) v (main_pc s) (source_pc s) (sink_pc s) (numFramesInFile s)
    (file_pos s) (file_size s) (console s) (acquired s) (written s).
Definition set_main_pc v s :=
  mkState (s_status s) (s_tail s) (s_expectedFrameNumber s) (s_frameSize s)
    (s_frames s) (s_frameQueue s) v (source_pc s) (sink_pc s)
    (numFramesInFile s) (file_pos s) (file_size s) (console s) (acquired s)
    (written s).
Definition set_source_pc v s :=
  mkState (s_status s) (s_tail s) (s_expectedFrameNumber s) (s_frameSize s)
    (s_frames s) (s_frameQueue s) (main_pc s) v (sink_pc s)
    (numFramesInFile s) (file_pos s) (file_size s) (console s) (acquired s)
    (written s).
Definition set_sink_pc v s :=
  mkState (s_status s) (s_tail s) (s_expectedFrameNumber s) (s_frameSize s)
    (s_frames s) (s_frameQueue s) (main_pc s) (source_pc s) v
    (numFramesInFile s) (file_pos s) (file_size s) (console s) (acquired s)
    (written s).
Definition set_numFramesInFile v s :=
  mkState (s_status s) (s_tail s) (s_expectedFrameNumber s) (s_frameSize s)
    (s_frames s) (s_frameQueue s) (main_pc s) (source_pc s) (sink_pc s) v
    (file_pos s) (file_size s) (console s) (acquired s) (written s).
Definition set_file_pos v s :=
  mkState (s_status s) (s_tail s) (s_expectedFrameNumber s) (s_frameSize s)
    (s_frames s) (s_frameQueue s) (main_pc s) (source_pc s) (sink_pc s)
    (numFramesInFile s) v (file_size s) (console s) (acquired s) (written s).
Definition set_file_size v s :=
  mkState (s_status s) (s_tail s) (s_expectedFrameNumber s) (s_frameSize s)
    (s_frames s) (s_frameQueue s) (main_pc s) (source_pc s) (sink_pc s)
    (numFramesInFile s) (file_pos s) v (console s) (acquired s) (written s).
Definition printf (m : Msg) s :=
  mkState (s_status s) (s_tail s) (s_expectedFrameNumber s) (s_frameSize s)
    (s_frames s) (s_frameQueue s) (main_pc s) (source_pc s) (sink_pc s)
    (numFramesInFile s) (file_pos s) (file_size s) (console s ++ [m])
    (acquired s) (written s).
Definition log_acquired (slot : Z) (d : FRAME_DESC) s :=
  mkState (s_status s) (s_tail s) (s_expectedFrameNumber s) (s_frameSize s)
    (s_frames s) (s_frameQueue s) (main_pc s) (source_pc s) (sink_pc s)
    (numFramesInFile s) (file_pos s) (file_size s) (console s)
    (acquired s ++ [(slot, d)]) (written s).
Definition log_written (slot wanted wrote : Z) s :=
  mkState (s_status s) (s_tail s) (s_expectedFrameNumber s) (s_frameSize s)
    (s_frames s) (s_frameQueue s) (main_pc s) (source_pc s) (sink_pc s)
    (numFramesInFile s) (file_pos s) (file_size s) (console s) (acquired s)
    (written s ++ [(slot, wanted, wrote)]).

(** The state when [main] is entered: statics are zero-initialised
    ([STATUS_RUNNING] is 0), [s_frameSize] starts at [MAX_IMAGE_SIZE], the
    pool has [BUFFER_SIZE] slots whose descriptors are not yet filled. *)
Definition initial : State :=
  {| s_status := STATUS_RUNNING;
     s_tail := 0;
     s_expectedFrameNumber := 0;
     s_frameSize := MAX_IMAGE_SIZE;
     s_frames := replicate (Z.to_nat BUFFER_SIZE) None;
     s_frameQueue := [];
     main_pc := MainEnumerate;
     source_pc := SourceIdle;
     sink_pc := SinkIdle;
     numFramesInFile := 0;
     file_pos := 0;
     file_size := 0;
     console := [];
     acquired := [];
     written := [] |}.

(** *** main *)

(** Label [Cleanup] of [main] and the end of the function (stopping the
    stream once more, [PxLUninitialize] and the release of the pool are not
    modelled).  [main] has no [return] statement on any path: control flows
    off its end, which in C++ is [return 0]. *)
Definition main_Cleanup (s : State) : State := set_main_pc (MainExited 0) s.

Definition main (e : MainEv) (s : State) : option State :=
  match main_pc s, e with
  | MainEnumerate, GetNumberCameras ok numCameras =>
      let s := set_tail 0 s in
      if negb ok || negb (numCameras =? 1)
      then Some (main_Cleanup (printf MsgExactlyOneCamera s))
      else Some (set_main_pc MainInitialize s)
  | MainInitialize, Initialize ok =>
      if negb ok
      then Some (main_Cleanup (printf MsgCouldNotInitialize s))
      else Some (set_main_pc MainStartStream s)
  | MainStartStream, StartStream ok =>
      if negb ok
      then Some (main_Cleanup (printf MsgCouldNotStream s))
      else
        (* Step 4: s_status = STATUS_RUNNING; both threads are created *)
        Some (set_main_pc MainWait
               (set_sink_pc SinkOpening
                 (set_source_pc SourceAwaitingFirst
                   (set_status STATUS_RUNNING s))))
  | MainWait, Slept =>
      if is_running (s_status s)
      then Some (set_main_pc MainLoop (printf MsgCapturing s))
      else Some (main_Cleanup s)
  | MainLoop, LoopTest =>
      (* while (s_status == STATUS_RUNNING) *)
      if is_running (s_status s)
      then Some (set_main_pc MainPolling s)
      else Some (set_main_pc MainStopStream s)
  | MainPolling, Kbhit pressed =>
      (* if (kbhit ()) { s_status = STATUS_USER_STOPPED; break; } *)
      if pressed
      then Some (set_main_pc MainStopStream
                  (set_status STATUS_USER_STOPPED s))
      else Some (set_main_pc MainLoop s)
  | MainStopStream, StopStream => Some (set_main_pc MainSleep s)
  | MainSleep, Slept => Some (main_Cleanup s)
  | _, _ => None
  end.

(** *** sourceThread *)

(** [s_frameSize = (U32) (Roi.fWidth * Roi.fHeight)]. *)
Definition frame_bytes (d : FRAME_DESC) : Z :=
  wrap32 (f32_to_U32 (f32_mul (fWidth (Roi d)) (fHeight (Roi d)))).

(** A successful [PxLGetNextFrame] fills the descriptor of the slot. *)
Definition fill_slot (slot : Z) (d : FRAME_DESC) (s : State) : State :=
  log_acquired slot d
    (set_frames (<[Z.to_nat slot := Some d]> (s_frames s)) s).

Definition sourceThread (e : SourceEv) (s : State) : option State :=
  match source_pc s, e with
  | SourceAwaitingFirst, GetNextFrame None =>
      Some (set_source_pc SourceStopped
             (set_status STATUS_ERROR (printf MsgNoInitialFrame s)))
  | SourceAwaitingFirst, GetNextFrame (Some d) =>
      let s := fill_slot (s_tail s) d s in
      let s := set_expectedFrameNumber (wrap32 (uFrameNumber d + 1)) s in
      Some (set_source_pc SourceStreaming (set_frameSize (frame_bytes d) s))
  | SourceStreaming, SourceLoop =>
      if is_running (s_status s)
      then
        (* pFrame = s_frames[s_tail]; s_tail = (s_tail + 1) & MASK *)
        Some (set_source_pc (SourceAcquiring (s_tail s))
               (set_tail (Z.land (wrap32 (s_tail s + 1)) BUFFER_SIZE_MASK) s))
      else Some (set_source_pc SourceStopped s)
  | SourceAcquiring slot, GetNextFrame None =>
      (* re-use the buffer next time *)
      let s := printf MsgCouldNotGetFrame s in
      Some (set_source_pc SourceStreaming
             (set_tail (Z.land (wrap32 (s_tail s - 1)) BUFFER_SIZE_MASK) s))
  | SourceAcquiring slot, GetNextFrame (Some d) =>
      let s := fill_slot slot d s in
      (* Step 2.1 *)
      let s := if uFrameNumber d =? s_expectedFrameNumber s then s
               else printf (MsgExpectedFrame (s_expectedFrameNumber s)
                                             (uFrameNumber d)) s in
      let s := set_expectedFrameNumber (wrap32 (uFrameNumber d + 1)) s in
      (* Step 2.2 *)
      if BUFFER_SIZE - 3 <=? Z.of_nat (length (s_frameQueue s))
      then Some (set_source_pc SourceStopped
                  (set_status STATUS_SINK_OVERRUN
                    (printf MsgSinkCannotKeepUp s)))
      else
        (* Step 2.3 *)
        Some (set_source_pc SourceStreaming
               (set_frameQueue (s_frameQueue s ++ [slot]) s))
  | _, _ => None
  end.

(** *** sinkThread *)

(** [fwrite] of [n] bytes at the current position of the file. *)
Definition file_write (n : Z) (s : State) : State :=
  set_file_size (Z.max (file_size s) (file_pos s + n))
    (set_file_pos (file_pos s + n) s).

Definition sinkThread (e : SinkEv) (s : State) : option State :=
  match sink_pc s, e with
  | SinkOpening, Fopen false =>
      (* the status is assigned, then control goes to Cleanup *)
      Some (set_sink_pc SinkClosingNull
             (set_status STATUS_ERROR (printf MsgCouldNotOpen s)))
  | SinkClosingNull, Fclose =>
      (* fclose (NULL): the behaviour is undefined; the C library
         dereferences the pointer and the process is killed *)
      Some (set_main_pc MainKilled s)
  | SinkOpening, Fopen true =>
      (* mode "wb": the file is truncated *)
      Some (set_sink_pc SinkDraining (set_file_size 0 (set_file_pos 0 s)))
  | SinkDraining, SinkLoop =>
      (* while (s_status == STATUS_RUNNING); when the loop is left,
         Cleanup closes the open file and the thread exits *)
      if is_running (s_status s)
      then Some (set_sink_pc SinkChecking s)
      else Some (set_sink_pc SinkStopped s)
  | SinkChecking, SinkEmpty =>
      (* if (!s_frameQueue.empty ()) *)
      match s_frameQueue s with
      | [] => Some (set_sink_pc SinkDraining s)
      | _ :: _ => Some (set_sink_pc SinkFetching s)
      end
  | SinkFetching, SinkFront =>
      (* pFrame = s_frameQueue[0] *)
      match s_frameQueue s with
      | [] => None
      | slot :: _ => Some (set_sink_pc (SinkErasing slot) s)
      end
  | SinkErasing slot, SinkErase =>
      (* s_frameQueue.erase (s_frameQueue.begin ()) *)
      match s_frameQueue s with
      | [] => None
      | _ :: rest =>
          Some (set_sink_pc (SinkWriting slot) (set_frameQueue rest s))
      end
  | SinkWriting slot, Fwrite numBytesWritten =>
      (* fwrite returns a count between 0 and the count requested *)
      if (0 <=? numBytesWritten) && (numBytesWritten <=? s_frameSize s)
      then
        let s := log_written slot (s_frameSize s) numBytesWritten
                   (file_write numBytesWritten s) in
        if negb (numBytesWritten =? s_frameSize s)
        then Some (set_sink_pc SinkStopped
                    (set_status STATUS_ERROR
                      (printf (MsgCouldNotWrite (s_frameSize s)
                                                numBytesWritten) s)))
        else
          (* Step 2.2: if (++numFramesInFile >= MAX_IMAGES) start over *)
          let n := wrap32 (numFramesInFile s + 1) in
          if MAX_IMAGES <=? n
          then Some (set_sink_pc SinkDraining
                      (set_numFramesInFile 0 (set_file_pos 0 s)))
          else Some (set_sink_pc SinkDraining (set_numFramesInFile n s))
      else None
  | _, _ => None
  end.

(** *** The interleaving *)

(** The process is gone once [main] has returned, or once it was killed. *)
Definition alive (s : State) : bool :=
  match main_pc s with MainExited _ | MainKilled => false | _ => true end.

Definition step (e : Event) (s : State) : option State :=
  match e with
  | EvMain e => main e s
  | EvSource e => if alive s then sourceThread e s else None
  | EvSink e => if alive s then sinkThread e s else None
  end.

Fixpoint run (tr : list Event) (s : State) : option State :=
  match tr with
  | [] => Some s
  | e :: tr' =>
      match step e s with
      | Some s' => run tr' s'
      | None => None
      end
  end.

Definition reachable (s : State) : Prop :=
  exists tr, run tr initial = Some s.

(** An [fwrite] that wrote as many bytes as were requested. *)
Definition complete (w : Z * Z * Z) : bool := snd (fst w) =? snd w.

(** Number of complete frame records written so far. *)
Definition frames_written (s : State) : Z :=
  Z.of_nat (length (filter complete (written s))).

(** [main] has created the two threads. *)
Definition started (pc : MainPc) : bool :=
  match pc with
  | MainEnumerate | MainInitialize | MainStartStream => false
  | _ => true
  end.

(** *** Executions *)

Lemma run_app tr1 tr2 s :
  run (tr1 ++ tr2) s =
  match run tr1 s with Some s1 => run tr2 s1 | None => None end.
Proof.
  revert s. induction tr1 as [| e tr1 IH]; intros s; simpl; [reflexivity |].
  destruct (step e s); [apply IH | reflexivity].
Qed.

Lemma reachable_initial : reachable initial.
Proof. exists []. reflexivity. Qed.

Lemma reachable_step s e s' :
  reachable s -> step e s = Some s' -> reachable s'.
Proof.
  intros [tr Htr] Hstep. exists (tr ++ [e]).
  rewrite run_app, Htr. simpl. rewrite Hstep. reflexivity.
Qed.

Lemma reachable_run tr s s' :
  reachable s -> run tr s = Some s' -> reachable s'.
Proof.
  revert s. induction tr as [| e tr IH]; intros s Hs Hrun; simpl in Hrun.
  - congruence.
  - destruct (step e s) as [s1 |] eqn:Hstep; [| discriminate].
    eapply IH; [eapply reachable_step |]; eassumption.
Qed.

(** Induction over the reachable states. *)
Lemma reachable_ind (P : State -> Prop) :
  P initial ->
  (forall s e s', reachable s -> P s -> step e s = Some s' -> P s') ->
  forall s, reachable s -> P s.
Proof.
  intros Hinit Hstep s [tr Htr]. revert s Htr.
  induction tr as [| e tr IH] using rev_ind; intros s Htr.
  - simpl in Htr. congruence.
  - rewrite run_app in Htr.
    destruct (run tr initial) as [s1 |] eqn:Hrun; [| discriminate].
    simpl in Htr. destruct (step e s1) as [s2 |] eqn:He; [| discriminate].
    inversion Htr; subst. eapply Hstep; [exists tr | apply IH |]; eauto.
Qed.

(** Case analysis of one transition. *)
Ltac bool_props :=
  repeat match goal with
  | H : negb _ = true |- _ => apply negb_true_iff in H
  | H : negb _ = false |- _ => apply negb_false_iff in H
  | H : (_ && _) = true |- _ => apply andb_prop in H; destruct H
  | H : (_ || _) = false |- _ => apply orb_false_elim in H; destruct H
  | H : (_ <=? _) = true |- _ => apply Z.leb_le in H
  | H : (_ <=? _) = false |- _ => apply Z.leb_gt in H
  | H : (_ =? _) = true |- _ => apply Z.eqb_eq in H
  | H : (_ =? _) = false |- _ => apply Z.eqb_neq in H
  end.

Ltac step_inv H :=
  unfold step, main, sourceThread, sinkThread in H;
  repeat match type of H with
  | context [match ?x with _ => _ end] =>
      destruct x eqn:?; try discriminate H
  end;
  injection H as <-; bool_props.

(** *** Arithmetic of the write cursor *)

Lemma mask_range z : 0 <= Z.land z BUFFER_SIZE_MASK < BUFFER_SIZE.
Proof.
  change BUFFER_SIZE_MASK with (Z.ones 4). change BUFFER_SIZE with (2 ^ 4).
  rewrite Z.land_ones by lia. apply Z.mod_pos_bound. lia.
Qed.

Lemma tail_advance_undo t :
  0 <= t < BUFFER_SIZE ->
  Z.land (wrap32 (Z.land (wrap32 (t + 1)) BUFFER_SIZE_MASK - 1))
         BUFFER_SIZE_MASK = t.
Proof.
  change BUFFER_SIZE with 16. intros Ht.
  assert (Hcases : t = 0 \/ t = 1 \/ t = 2 \/ t = 3 \/ t = 4 \/ t = 5 \/
                   t = 6 \/ t = 7 \/ t = 8 \/ t = 9 \/ t = 10 \/ t = 11 \/
                   t = 12 \/ t = 13 \/ t = 14 \/ t = 15) by lia.
  repeat (destruct Hcases as [-> | Hcases]; [reflexivity |]).
  subst t. reflexivity.
Qed.

Lemma frame_bytes_nonneg d : 0 <= frame_bytes d.
Proof. unfold frame_bytes. apply wrap32_range. Qed.

(** *** Invariant of the reachable states *)

Record Inv (s : State) : Prop := {
  inv_tail : 0 <= s_tail s < BUFFER_SIZE;
  inv_idle :
    started (main_pc s) = false ->
    source_pc s = SourceIdle /\ sink_pc s = SinkIdle /\
    s_status s = STATUS_RUNNING;
  inv_size_nonneg : 0 <= s_frameSize s;
  inv_first :
    match acquired s with
    | [] =>
        s_frameQueue s = [] /\ written s = [] /\
        file_pos s = 0 /\ file_size s = 0 /\ numFramesInFile s = 0 /\
        (forall slot, sink_pc s <> SinkWriting slot /\
                      sink_pc s <> SinkErasing slot) /\
        source_pc s <> SourceStreaming /\
        (forall slot, source_pc s <> SourceAcquiring slot)
    | (_, d0) :: _ =>
        s_frameSize s = frame_bytes d0 /\
        source_pc s <> SourceIdle /\ source_pc s <> SourceAwaitingFirst
    end;
  inv_written :
    Forall (fun w => snd (fst w) = s_frameSize s /\
                     0 <= snd w <= s_frameSize s) (written s);
  inv_unopened :
    sink_pc s = SinkIdle \/ sink_pc s = SinkOpening -> written s = [];
  inv_short :
    forallb complete (written s) = false -> sink_pc s = SinkStopped;
  inv_count : numFramesInFile s = frames_written s mod MAX_IMAGES;
  inv_pos :
    forallb complete (written s) = true ->
    file_pos s = (frames_written s mod MAX_IMAGES) * s_frameSize s;
  inv_file : file_size s <= MAX_IMAGES * s_frameSize s
}.

Lemma Inv_initial : Inv initial.
Proof.
  constructor; simpl.
  - change BUFFER_SIZE with 16. lia.
  - auto.
  - unfold MAX_IMAGE_SIZE. lia.
  - repeat split; try congruence; intros; discriminate.
  - constructor.
  - reflexivity.
  - discriminate.
  - reflexivity.
  - reflexivity.
  - unfold MAX_IMAGES, MAX_IMAGE_SIZE. lia.
Qed.

Ltac use_pcs :=
  repeat match goal with
  | H : main_pc ?s = _ |- context [main_pc ?s] => rewrite H
  | H : source_pc ?s = _ |- context [source_pc ?s] => rewrite H
  | H : sink_pc ?s = _ |- context [sink_pc ?s] => rewrite H
  end.

Ltac inv_basic :=
  unfold frames_written in *; simpl in *; use_pcs;
  first
    [ assumption
    | apply mask_range
    | exact (frame_bytes_nonneg _)
    | change BUFFER_SIZE with 16; lia
    | intros; discriminate
    | intros [? | ?]; discriminate
    | match goal with
      | Hf : match acquired ?s with _ => _ end |- _ =>
          destruct (acquired s) as [| [? ?] ?]; simpl; intuition congruence
      end
    | idtac ].

Lemma Inv_main s e s' : Inv s -> main e s = Some s' -> Inv s'.
Proof.
  intros [Ht Hi Hn Hf Hw Hu Hs Hc Hp Hz] Hstep.
  step_inv Hstep; constructor; inv_basic.
Qed.

Lemma Inv_source s e s' : Inv s -> sourceThread e s = Some s' -> Inv s'.
Proof.
  intros [Ht Hi Hn Hf Hw Hu Hs Hc Hp Hz] Hstep.
  step_inv Hstep; constructor; inv_basic.
  all: destruct (acquired s) as [| [? ?] ?];
    [ destruct Hf as (Hq & Hwr & Hpos & Hsz & Hnum & _)
    | exfalso; intuition congruence ].
  - rewrite Hwr. constructor.
  - rewrite Hwr, Hpos. reflexivity.
  - rewrite Hsz. pose proof (frame_bytes_nonneg f).
    change MAX_IMAGES with 32. lia.
Qed.

Lemma succ_mod_images k :
  0 <= k ->
  (k mod MAX_IMAGES + 1 < MAX_IMAGES ->
   (k + 1) mod MAX_IMAGES = k mod MAX_IMAGES + 1) /\
  (MAX_IMAGES <= k mod MAX_IMAGES + 1 -> (k + 1) mod MAX_IMAGES = 0).
Proof.
  change MAX_IMAGES with 32. intros Hk.
  pose proof (Z.div_mod k 32 ltac:(lia)) as Hdm.
  pose proof (Z.mod_pos_bound k 32 ltac:(lia)) as Hb.
  split; intros H.
  - symmetry. apply Z.mod_unique with (q := k / 32); lia.
  - symmetry. apply Z.mod_unique with (q := k / 32 + 1); lia.
Qed.

Lemma filter_complete_snoc l w :
  filter complete (l ++ [w]) =
  if complete w then filter complete l ++ [w] else filter complete l.
Proof.
  rewrite List.filter_app. simpl.
  destruct (complete w); [reflexivity | apply app_nil_r].
Qed.

Lemma forallb_complete_snoc l w :
  forallb complete (l ++ [w]) = forallb complete l && complete w.
Proof. rewrite forallb_app. simpl. rewrite andb_true_r. reflexivity. Qed.

Lemma Inv_sink s e s' : Inv s -> sinkThread e s = Some s' -> Inv s'.
Proof.
  intros [Ht Hi Hn Hf Hw Hu Hs Hc Hp Hz] Hstep.
  unfold sinkThread in Hstep.
  destruct (sink_pc s) eqn:Hpc; destruct e as [ok | | | | | n |];
    try discriminate Hstep.
  - (* fopen *)
    pose proof (Hu (or_intror eq_refl)) as Hnil.
    destruct ok; injection Hstep as <-; constructor; inv_basic.
    all: rewrite ?Hnil; simpl; try discriminate; try reflexivity.
    change MAX_IMAGES with 32. lia.
  - (* the test of the loop *)
    step_inv Hstep; constructor; inv_basic.
  - (* empty () *)
    step_inv Hstep; constructor; inv_basic.
  - (* operator[] *)
    step_inv Hstep; constructor; inv_basic.
  - (* erase *)
    step_inv Hstep; constructor; inv_basic.
  - (* fwrite *)
    destruct ((0 <=? n) && (n <=? s_frameSize s)) eqn:Hguard;
      [| discriminate Hstep].
    bool_props.
    assert (Hall : forallb complete (written s) = true).
    { destruct (forallb complete (written s)); [reflexivity |].
      specialize (Hs eq_refl). discriminate Hs. }
    specialize (Hp Hall). clear Hs.
    unfold frames_written in *.
    set (k := Z.of_nat (length (filter complete (written s)))) in *.
    assert (Hk : 0 <= k) by (subst k; lia).
    pose proof (Z.mod_pos_bound k MAX_IMAGES ltac:(reflexivity)) as Hkm.
    destruct (succ_mod_images k Hk) as [Hnowrap Hwrap].
    assert (Hpos31 : file_pos s + s_frameSize s <= MAX_IMAGES * s_frameSize s).
    { rewrite Hp. change MAX_IMAGES with 32 in *. nia. }
    assert (Hw' : Forall (fun w => snd (fst w) = s_frameSize s /\
                                   0 <= snd w <= s_frameSize s)
                    (written s ++ [(slot, s_frameSize s, n)])).
    { apply Forall_app. split; [exact Hw |]. constructor; [| constructor].
      simpl. lia. }
    simpl in Hstep.
    destruct (n =? s_frameSize s) eqn:Hn'; simpl in Hstep; bool_props.
    + (* a complete record *)
      subst n.
      assert (Hfilter :
        Z.of_nat (length (filter complete
                    (written s ++ [(slot, s_frameSize s, s_frameSize s)])))
        = k + 1).
      { rewrite filter_complete_snoc. unfold complete at 1. simpl.
        rewrite Z.eqb_refl, length_app. simpl. subst k. lia. }
      assert (Hwrap32 : wrap32 (numFramesInFile s + 1) = k mod MAX_IMAGES + 1).
      { rewrite Hc. apply wrap32_small. change MAX_IMAGES with 32 in *. lia. }
      rewrite Hwrap32 in Hstep.
      destruct (MAX_IMAGES <=? k mod MAX_IMAGES + 1) eqn:Hfull;
        injection Hstep as <-; bool_props; constructor; simpl; use_pcs;
        unfold frames_written; simpl; rewrite ?Hfilter;
        try assumption; try (intros; discriminate);
        try (intros [? | ?]; discriminate).
      all: try (intros Hpre; destruct (Hi Hpre) as (_ & Hx & _);
                discriminate Hx).
      all: try (destruct (acquired s) as [| [? ?] ?];
                [ exfalso; destruct Hf as (_ & _ & _ & _ & _ & Hx & _);
                  exact (proj1 (Hx _) eq_refl)
                | exact Hf ]).
      all: try (rewrite forallb_complete_snoc, Hall; unfold complete; simpl;
                rewrite Z.eqb_refl; discriminate).
      all: lia.
    + (* a short write *)
      assert (Hfilter :
        filter complete (written s ++ [(slot, s_frameSize s, n)])
        = filter complete (written s)).
      { rewrite filter_complete_snoc. unfold complete at 1. simpl.
        rewrite Z.eqb_sym.
        destruct (Z.eqb_spec n (s_frameSize s)); [contradiction | reflexivity]. }
      injection Hstep as <-; constructor; simpl; use_pcs;
        unfold frames_written; simpl; rewrite ?Hfilter;
        try assumption; try (intros; discriminate);
        try (intros [? | ?]; discriminate); try reflexivity.
      all: try (intros Hpre; destruct (Hi Hpre) as (_ & Hx & _);
                discriminate Hx).
      all: try (destruct (acquired s) as [| [? ?] ?];
                [ exfalso; destruct Hf as (_ & _ & _ & _ & _ & Hx & _);
                  exact (proj1 (Hx _) eq_refl)
                | exact Hf ]).
      all: try lia.
      rewrite forallb_complete_snoc, Hall. unfold complete. simpl.
      rewrite Z.eqb_sym.
      destruct (Z.eqb_spec n (s_frameSize s)); [contradiction | discriminate].
  - (* fclose of the null pointer *)
    step_inv Hstep; constructor; inv_basic.
Qed.

Lemma Inv_step s e s' : Inv s -> step e s = Some s' -> Inv s'.
Proof.
  intros Hinv Hstep. destruct e as [e | e | e]; simpl in Hstep.
  - eapply Inv_main; eassumption.
  - destruct (alive s); [| discriminate]. eapply Inv_source; eassumption.
  - destruct (alive s); [| discriminate]. eapply Inv_sink; eassumption.
Qed.

Lemma reachable_Inv s : reachable s -> Inv s.
Proof.
  intros Hs. induction Hs using reachable_ind.
  - apply Inv_initial.
  - eapply Inv_step; eassumption.
Qed.

(** *** What the other threads leave alone *)

Definition not_source (e : Event) : bool :=
  match e with EvSource _ => false | _ => true end.

(** Once the threads exist, a step of [main] or of the sink thread leaves
    the write cursor, the tracker, the pool, the source's control point and
    the acquisition history alone, and can only pop from the queue. *)
Lemma other_step_frame e s s' :
  not_source e = true ->
  started (main_pc s) = true ->
  step e s = Some s' ->
  started (main_pc s') = true /\
  s_tail s' = s_tail s /\
  s_expectedFrameNumber s' = s_expectedFrameNumber s /\
  s_frames s' = s_frames s /\
  source_pc s' = source_pc s /\
  acquired s' = acquired s /\
  exists popped, s_frameQueue s = popped ++ s_frameQueue s'.
Proof.
  intros He Hstarted Hstep. destruct e as [e | e | e]; [| discriminate He |].
  - step_inv Hstep; simpl in *; try discriminate Hstarted;
      repeat split; use_pcs; auto; exists nil; reflexivity.
  - unfold step in Hstep. destruct (alive s); [| discriminate Hstep].
    step_inv Hstep; simpl in *; repeat split; auto;
      first [ exists nil; simpl; congruence
            | eexists (cons _ nil); simpl; reflexivity ].
Qed.

Lemma other_run_frame tr s s' :
  Forall (fun e => not_source e = true) tr ->
  started (main_pc s) = true ->
  run tr s = Some s' ->
  started (main_pc s') = true /\
  s_tail s' = s_tail s /\
  s_expectedFrameNumber s' = s_expectedFrameNumber s /\
  s_frames s' = s_frames s /\
  source_pc s' = source_pc s /\
  acquired s' = acquired s /\
  exists popped, s_frameQueue s = popped ++ s_frameQueue s'.
Proof.
  intros Htr. revert s. induction Htr as [| e tr He Htr IH]; intros s Hst Hrun.
  - simpl in Hrun. injection Hrun as <-.
    repeat split; auto. exists nil. reflexivity.
  - simpl in Hrun. destruct (step e s) as [s1 |] eqn:Hstep; [| discriminate].
    destruct (other_step_frame _ _ _ He Hst Hstep)
      as (Hst1 & Ht1 & He1 & Hf1 & Hp1 & Ha1 & popped1 & Hq1).
    destruct (IH _ Hst1 Hrun)
      as (Hst2 & Ht2 & He2 & Hf2 & Hp2 & Ha2 & popped2 & Hq2).
    repeat split; try congruence.
    exists (popped1 ++ popped2). rewrite Hq1, Hq2, app_assoc. reflexivity.
Qed.

Lemma source_started s :
  Inv s -> source_pc s <> SourceIdle -> started (main_pc s) = true.
Proof.
  intros Hinv Hpc. destruct (started (main_pc s)) eqn:Hst; [reflexivity |].
  destruct (inv_idle _ Hinv Hst) as [Hidle _]. contradiction.
Qed.



(** A terminal status is never turned back into [STATUS_RUNNING]. *)
Lemma terminal_step e s s' :
  Inv s -> step e s = Some s' ->
  s_status s <> STATUS_RUNNING -> s_status s' <> STATUS_RUNNING.
Proof.
  intros Hinv Hstep Hterm.
  destruct e as [e | e | e]; simpl in Hstep;
    try (destruct (alive s); [| discriminate Hstep]).
  - destruct (started (main_pc s)) eqn:Hst.
    + step_inv Hstep; simpl in *; try discriminate; assumption.
    + destruct (inv_idle _ Hinv Hst) as (_ & _ & Hrun). contradiction.
  - step_inv Hstep; simpl; try discriminate; assumption.
  - step_inv Hstep; simpl; try discriminate; assumption.
Qed.

(** [main] only ever returns 0. *)
Lemma main_exit_code s code :
  reachable s -> main_pc s = MainExited code -> code = 0.
Proof.
  intros Hs. revert code. induction Hs as [| s e s' _ IH Hstep] using reachable_ind;
    intros code Hpc.
  - discriminate Hpc.
  - destruct e as [e | e | e]; simpl in Hstep;
      try (destruct (alive s); [| discriminate Hstep]).
    + step_inv Hstep; simpl in Hpc; try discriminate Hpc;
        solve [ injection Hpc as <-; reflexivity | congruence | eapply IH; eauto ].
    + step_inv Hstep; simpl in Hpc; eapply IH; eauto.
    + step_inv Hstep; simpl in Hpc; try discriminate Hpc; eapply IH; eauto.
Qed.

(** *** Every number of frames can be written *)

(** Both loops are at their heads, the queue is empty and nothing went
    wrong so far. *)
Definition steady (s : State) : Prop :=
  alive s = true /\ s_status s = STATUS_RUNNING /\
  source_pc s = SourceStreaming /\ sink_pc s = SinkDraining /\
  s_frameQueue s = [] /\ forallb complete (written s) = true /\
  0 <= s_frameSize s.

(** One frame acquired, queued, popped and written whole. *)
Definition one_frame (d : FRAME_DESC) (size : Z) : list Event :=
  [EvSource SourceLoop; EvSource (GetNextFrame (Some d));
   EvSink SinkLoop; EvSink SinkEmpty; EvSink SinkFront; EvSink SinkErase;
   EvSink (Fwrite size)].

(** The four steps of such a round, one by one. *)
Lemma step_source_loop s :
  alive s = true -> source_pc s = SourceStreaming ->
  s_status s = STATUS_RUNNING ->
  step (EvSource SourceLoop) s
  = Some (set_source_pc (SourceAcquiring (s_tail s))
           (set_tail (Z.land (wrap32 (s_tail s + 1)) BUFFER_SIZE_MASK) s)).
Proof.
  intros Halive Hpc Hst. unfold step, sourceThread.
  rewrite Halive, Hpc, Hst. reflexivity.
Qed.

Lemma step_source_push s slot d :
  alive s = true -> source_pc s = SourceAcquiring slot ->
  Z.of_nat (length (s_frameQueue s)) < BUFFER_SIZE - 3 ->
  exists s',
    step (EvSource (GetNextFrame (Some d))) s = Some s' /\
    source_pc s' = SourceStreaming /\
    s_frameQueue s' = s_frameQueue s ++ [slot] /\
    main_pc s' = main_pc s /\ s_status s' = s_status s /\
    sink_pc s' = sink_pc s /\ written s' = written s /\
    s_frameSize s' = s_frameSize s.
Proof.
  intros Halive Hpc Hroom. unfold step, sourceThread.
  rewrite Halive, Hpc. cbv zeta.
  match goal with
  | |- context [if ?b then Some _ else Some _] =>
      replace b with false
        by (symmetry; apply Z.leb_gt; destruct (_ =? _); simpl; exact Hroom)
  end.
  eexists. split; [reflexivity |].
  destruct (_ =? _); simpl; repeat split; reflexivity.
Qed.

Lemma step_sink_pop s slot rest :
  alive s = true -> sink_pc s = SinkDraining ->
  s_status s = STATUS_RUNNING -> s_frameQueue s = slot :: rest ->
  run [EvSink SinkLoop; EvSink SinkEmpty; EvSink SinkFront; EvSink SinkErase]
      s
  = Some (set_sink_pc (SinkWriting slot) (set_frameQueue rest s)).
Proof.
  intros Halive Hpc Hst Hq. unfold run.
  assert (H1 : step (EvSink SinkLoop) s = Some (set_sink_pc SinkChecking s))
    by (unfold step, sinkThread; rewrite Halive, Hpc, Hst; reflexivity).
  rewrite H1. clear H1.
  assert (H2 : step (EvSink SinkEmpty) (set_sink_pc SinkChecking s)
               = Some (set_sink_pc SinkFetching (set_sink_pc SinkChecking s))).
  { unfold step, sinkThread.
    change (alive (set_sink_pc SinkChecking s)) with (alive s).
    rewrite Halive. simpl. rewrite Hq. reflexivity. }
  rewrite H2. clear H2.
  assert (H3 : step (EvSink SinkFront)
                 (set_sink_pc SinkFetching (set_sink_pc SinkChecking s))
               = Some (set_sink_pc (SinkErasing slot) s)).
  { unfold step, sinkThread.
    change (alive (set_sink_pc SinkFetching (set_sink_pc SinkChecking s)))
      with (alive s).
    rewrite Halive. simpl. rewrite Hq. reflexivity. }
  rewrite H3. clear H3.
  unfold step, sinkThread.
  change (alive (set_sink_pc (SinkErasing slot) s)) with (alive s).
  rewrite Halive. simpl. rewrite Hq. reflexivity.
Qed.

Lemma step_sink_write s slot :
  alive s = true -> sink_pc s = SinkWriting slot -> 0 <= s_frameSize s ->
  exists s',
    step (EvSink (Fwrite (s_frameSize s))) s = Some s' /\
    sink_pc s' = SinkDraining /\
    written s' = written s ++ [(slot, s_frameSize s, s_frameSize s)] /\
    main_pc s' = main_pc s /\ s_status s' = s_status s /\
    source_pc s' = source_pc s /\ s_frameQueue s' = s_frameQueue s /\
    s_frameSize s' = s_frameSize s.
Proof.
  intros Halive Hpc Hsize. unfold step, sinkThread.
  rewrite Halive, Hpc.
  replace ((0 <=? s_frameSize s) && (s_frameSize s <=? s_frameSize s))
    with true
    by (symmetry; apply andb_true_intro; split; apply Z.leb_le; lia).
  cbv zeta. simpl s_frameSize. rewrite Z.eqb_refl. cbn [negb].
  destruct (MAX_IMAGES <=? _); eexists; (split; [reflexivity |]);
    simpl; repeat split; reflexivity.
Qed.

Lemma steady_one_frame s d :
  steady s ->
  exists s',
    run (one_frame d (s_frameSize s)) s = Some s' /\ steady s' /\
    frames_written s' = frames_written s + 1 /\
    s_frameSize s' = s_frameSize s.
Proof.
  intros (Halive & Hst & Hsrc & Hsnk & Hq & Hall & Hsize).
  unfold one_frame.
  change [EvSource SourceLoop; EvSource (GetNextFrame (Some d));
          EvSink SinkLoop; EvSink SinkEmpty; EvSink SinkFront;
          EvSink SinkErase; EvSink (Fwrite (s_frameSize s))]
    with ([EvSource SourceLoop; EvSource (GetNextFrame (Some d))] ++
          [EvSink SinkLoop; EvSink SinkEmpty; EvSink SinkFront;
           EvSink SinkErase] ++ [EvSink (Fwrite (s_frameSize s))]).
  rewrite !run_app. unfold run at 1.
  (* the source takes a slot *)
  rewrite (step_source_loop s Halive Hsrc Hst).
  set (s1 := set_source_pc _ _).
  (* the frame arrives and is queued *)
  destruct (step_source_push s1 (s_tail s) d) as
    (s2 & Hstep2 & Hsrc2 & Hq2 & Hm2 & Hst2 & Hsnk2 & Hw2 & Hsz2);
    [exact Halive | reflexivity | simpl; rewrite Hq; reflexivity |].
  rewrite Hstep2. simpl in Hq2, Hm2, Hst2, Hsnk2, Hw2, Hsz2.
  rewrite Hq in Hq2. simpl in Hq2.
  assert (Halive2 : alive s2 = true)
    by (unfold alive in *; rewrite Hm2; exact Halive).
  (* the sink pops it *)
  rewrite run_app, (step_sink_pop s2 (s_tail s) []) by congruence.
  set (s3 := set_sink_pc _ _). unfold run.
  (* and writes it whole *)
  destruct (step_sink_write s3 (s_tail s)) as
    (s4 & Hstep4 & Hsnk4 & Hw4 & Hm4 & Hst4 & Hsrc4 & Hq4 & Hsz4);
    [exact Halive2 | reflexivity | simpl; lia |].
  change (s_frameSize s3) with (s_frameSize s2) in Hstep4.
  simpl in Hw4, Hm4, Hst4, Hsrc4, Hq4, Hsz4.
  rewrite Hsz2 in Hstep4, Hw4, Hsz4. rewrite Hw2 in Hw4.
  rewrite Hstep4. exists s4. split; [reflexivity |].
  unfold steady, alive, frames_written in *.
  rewrite Hw4, filter_complete_snoc, forallb_complete_snoc, Hall.
  replace (complete (s_tail s, s_frameSize s, s_frameSize s)) with true
    by (symmetry; apply Z.eqb_refl).
  rewrite length_app, Hm4, Hm2. simpl.
  repeat split; try congruence; lia.
Qed.

Lemma steady_start d :
  exists s,
    reachable s /\ steady s /\ frames_written s = 0 /\
    s_frameSize s = frame_bytes d.
Proof.
  eexists. split; [| split; [| split]].
  - exists [EvMain (GetNumberCameras true 1); EvMain (Initialize true);
            EvMain (StartStream true); EvSource (GetNextFrame (Some d));
            EvSink (Fopen true)].
    cbv -[wrap32 frame_bytes Z.add uFrameNumber]. reflexivity.
  - unfold steady, alive. cbn. repeat split; try reflexivity.
    apply frame_bytes_nonneg.
  - reflexivity.
  - reflexivity.
Qed.

(** For every [k] there is an execution in which exactly [k] frames have
    been written, all of them complete. *)
Lemma every_frame_count_reachable (d : FRAME_DESC) (k : nat) :
  exists s,
    reachable s /\ steady s /\ frames_written s = Z.of_nat k /\
    s_frameSize s = frame_bytes d.
Proof.
  induction k as [| k IH].
  - apply steady_start.
  - destruct IH as (s & Hreach & Hsteady & Hk & Hsize).
    destruct (steady_one_frame s d Hsteady)
      as (s' & Hrun & Hsteady' & Hk' & Hsize').
    exists s'. split; [eapply reachable_run; eassumption |].
    split; [exact Hsteady' |]. split; [lia | congruence].
Qed.

(** *** The fatal conditions of the two loops *)

(** [Fatal s e st]: in state [s] the answer [e] of the environment is one of
    the four fatal conditions, and [st] is the status the code assigns. *)
Inductive Fatal (s : State) : Event -> RUNTIME_STATUS -> Prop :=
| FirstAcquireFailed :
    source_pc s = SourceAwaitingFirst ->
    Fatal s (EvSource (GetNextFrame None)) STATUS_ERROR
| SinkOpenFailed :
    sink_pc s = SinkOpening ->
    Fatal s (EvSink (Fopen false)) STATUS_ERROR
| ShortWrite slot n :
    sink_pc s = SinkWriting slot ->
    0 <= n < s_frameSize s ->
    Fatal s (EvSink (Fwrite n)) STATUS_ERROR
| Backpressure slot d :
    source_pc s = SourceAcquiring slot ->
    BUFFER_SIZE - 3 <= Z.of_nat (length (s_frameQueue s)) ->
    Fatal s (EvSource (GetNextFrame (Some d))) STATUS_SINK_OVERRUN.

(** The thread that took the step has left its loop for good: it is at
    its [pthread_exit], or, for the sink thread after a failed [fopen], at
    the [fclose] of the null [FILE] pointer, which ends the process. *)
Definition thread_stopped (e : Event) (s : State) : Prop :=
  match e with
  | EvSource _ => source_pc s = SourceStopped
  | EvSink _ => sink_pc s = SinkStopped \/ sink_pc s = SinkClosingNull
  | EvMain _ => True
  end.

Definition not_main (e : Event) : bool :=
  match e with EvMain _ => false | _ => true end.

(** *** The claims about the pipeline *)


(** C3 (amended): each of the four fatal conditions sets a terminal status
    and stops the loop that detected it: [STATUS_ERROR] for a failed first
    acquire, a failed [fopen] and a short [fwrite], [STATUS_SINK_OVERRUN] for
    backpressure (so the first three share one status); and no other step of
    the source or sink thread changes the status. *)
Theorem fatal_conditions :
  (forall s e st,
      alive s = true -> Fatal s e st ->
      exists s', step e s = Some s' /\ s_status s' = st /\
                 st <> STATUS_RUNNING /\ thread_stopped e s') /\
  (forall s e s',
      not_main e = true -> step e s = Some s' ->
      s_status s' <> s_status s -> exists st, Fatal s e st).
Proof.
  split.
  - intros s e st Halive Hfatal.
    destruct Hfatal as [Hpc | Hpc | slot n Hpc Hn | slot d Hpc Hfull];
      unfold step; rewrite Halive.
    + unfold sourceThread. rewrite Hpc. eexists. simpl. repeat split.
      discriminate.
    + unfold sinkThread. rewrite Hpc. eexists. simpl.
      split; [reflexivity |]. split; [reflexivity |].
      split; [discriminate | right; reflexivity].
    + unfold sinkThread. rewrite Hpc.
      replace ((0 <=? n) && (n <=? s_frameSize s)) with true
        by (symmetry; apply andb_true_intro; split; apply Z.leb_le; lia).
      cbn zeta. simpl s_frameSize.
      replace (n =? s_frameSize s) with false
        by (symmetry; apply Z.eqb_neq; lia).
      eexists. simpl.
      split; [reflexivity |]. split; [reflexivity |].
      split; [discriminate | left; reflexivity].
    + unfold sourceThread. rewrite Hpc. cbn zeta.
      match goal with
      | |- context [if ?b then _ else _] =>
          replace b with true
            by (symmetry; apply Z.leb_le;
                destruct (_ =? _); simpl; exact Hfull)
      end.
      eexists. split; [reflexivity |].
      destruct (_ =? _); simpl; repeat split; discriminate.
  - intros s e s' He Hstep Hchg.
    destruct e as [e | e | e]; [discriminate He | |];
      unfold step in Hstep;
      (destruct (alive s); [| discriminate Hstep]).
    + unfold sourceThread in Hstep.
      destruct (source_pc s) eqn:Hpc; destruct e as [[d |] |];
        try discriminate Hstep.
      * injection Hstep as <-. simpl in Hchg. contradiction.
      * exists STATUS_ERROR. constructor. assumption.
      * destruct (is_running (s_status s)); injection Hstep as <-;
          simpl in Hchg; contradiction.
      * cbn zeta in Hstep.
        match type of Hstep with
        | context [if ?b then _ else _] => destruct b eqn:Hfull
        end.
        -- exists STATUS_SINK_OVERRUN. econstructor; [eassumption |].
           apply Z.leb_le in Hfull.
           destruct (_ =? _) in Hfull; simpl in Hfull; exact Hfull.
        -- injection Hstep as <-.
           destruct (_ =? _) in Hchg; simpl in Hchg; contradiction.
      * injection Hstep as <-. simpl in Hchg. contradiction.
    + unfold sinkThread in Hstep.
      destruct (sink_pc s) eqn:Hpc; destruct e as [ok | | | | | n |];
        try discriminate Hstep.
      * destruct ok.
        -- injection Hstep as <-. simpl in Hchg. contradiction.
        -- exists STATUS_ERROR. constructor. assumption.
      * destruct (is_running (s_status s));
          injection Hstep as <-; simpl in Hchg; contradiction.
      * destruct (s_frameQueue s);
          injection Hstep as <-; simpl in Hchg; contradiction.
      * destruct (s_frameQueue s); [discriminate Hstep |].
        injection Hstep as <-; simpl in Hchg; contradiction.
      * destruct (s_frameQueue s); [discriminate Hstep |].
        injection Hstep as <-; simpl in Hchg; contradiction.
      * destruct ((0 <=? n) && (n <=? s_frameSize s)) eqn:Hguard;
          [| discriminate Hstep].
        bool_props. cbn zeta in Hstep. simpl s_frameSize in Hstep.
        destruct (n =? s_frameSize s) eqn:Hn; bool_props.
        -- simpl in Hstep.
           destruct (MAX_IMAGES <=? _) in Hstep; injection Hstep as <-;
             simpl in Hchg; contradiction.
        -- exists STATUS_ERROR. econstructor; [eassumption | lia].
      * injection Hstep as <-. simpl in Hchg. contradiction.
Qed.

(** C4 (amended): [main] sets the status to [STATUS_RUNNING] when it starts
    the pipeline, and once the status is terminal no step of [main], of the
    source thread or of the sink thread sets it back to [STATUS_RUNNING]
    (a terminal value may still be overwritten by another terminal value). *)
Theorem status_never_reverts :
  (forall s s',
      step (EvMain (StartStream true)) s = Some s' ->
      s_status s' = STATUS_RUNNING /\
      source_pc s' = SourceAwaitingFirst /\ sink_pc s' = SinkOpening) /\
  (forall s tr s',
      reachable s -> run tr s = Some s' ->
      s_status s <> STATUS_RUNNING -> s_status s' <> STATUS_RUNNING).
Proof.
  split.
  - intros s s' Hstep. simpl in Hstep. unfold main in Hstep.
    destruct (main_pc s); try discriminate Hstep.
    injection Hstep as <-. simpl. auto.
  - intros s tr. revert s.
    induction tr as [| e tr IH]; intros s s' Hreach Hrun Hterm; simpl in Hrun.
    + injection Hrun as <-. assumption.
    + destruct (step e s) as [s1 |] eqn:Hstep; [| discriminate Hrun].
      apply (IH s1); [eapply reachable_step; eassumption | assumption |].
      eapply terminal_step; [apply reachable_Inv | |]; eassumption.
Qed.

(** C6: a steady-state iteration of the capture loop whose blocking acquire
    fails.  The iteration starts in [s0] with the status Running, takes slot
    [s_tail s0] and blocks ([s1]); [main] and the sink thread may run
    meanwhile ([tr], reaching [s1']); the acquire then fails ([s2]).  At the
    end the write cursor is back at its value in [s0], the tracker and the
    acquisition history are those of [s0], the failing step pushed nothing
    and left the status as it was (Running in [s2] when no other thread
    ran), one message was printed, the thread is back at the head of its
    loop, and if the status is still Running the next iteration takes the
    same slot again. *)
Theorem acquire_failure_recycles s0 s1 tr s1' s2 :
  reachable s0 ->
  s_status s0 = STATUS_RUNNING ->
  step (EvSource SourceLoop) s0 = Some s1 ->
  Forall (fun e => not_source e = true) tr ->
  run tr s1 = Some s1' ->
  step (EvSource (GetNextFrame None)) s1' = Some s2 ->
  source_pc s1 = SourceAcquiring (s_tail s0) /\
  s_tail s2 = s_tail s0 /\
  s_expectedFrameNumber s2 = s_expectedFrameNumber s0 /\
  acquired s2 = acquired s0 /\
  s_frameQueue s2 = s_frameQueue s1' /\
  (exists popped, s_frameQueue s0 = popped ++ s_frameQueue s2) /\
  s_status s2 = s_status s1' /\
  (tr = [] -> s_status s2 = STATUS_RUNNING /\
              s_frameQueue s2 = s_frameQueue s0) /\
  console s2 = console s1' ++ [MsgCouldNotGetFrame] /\
  source_pc s2 = SourceStreaming /\
  (s_status s2 = STATUS_RUNNING ->
   exists s3, step (EvSource SourceLoop) s2 = Some s3 /\
              source_pc s3 = SourceAcquiring (s_tail s0)).
Proof.
  intros Hreach Hrun0 Hhead Htr Hrun Hfail.
  pose proof (reachable_Inv _ Hreach) as Hinv0.
  (* the head of the loop *)
  unfold step in Hhead. destruct (alive s0) eqn:Halive0; [| discriminate].
  unfold sourceThread in Hhead.
  destruct (source_pc s0) eqn:Hpc0; try discriminate Hhead.
  rewrite Hrun0 in Hhead. simpl in Hhead. injection Hhead as <-.
  assert (Hst1 : started (main_pc s0) = true)
    by (apply source_started; [assumption | congruence]).
  (* the other threads *)
  pose proof Hrun as Hframe.
  eapply other_run_frame in Hframe; [| exact Htr | exact Hst1].
  destruct Hframe as (Hst & Ht & He & Hf & Hp & Ha & popped & Hq).
  simpl in Ht, He, Hf, Hp, Ha, Hq.
  (* the failed acquire *)
  unfold step in Hfail. destruct (alive s1') eqn:Halive1; [| discriminate].
  unfold sourceThread in Hfail. rewrite Hp in Hfail. simpl in Hfail.
  injection Hfail as <-. simpl.
  assert (Hback : Z.land (wrap32 (s_tail s1' - 1)) BUFFER_SIZE_MASK
                  = s_tail s0).
  { rewrite Ht. apply tail_advance_undo. apply (inv_tail _ Hinv0). }
  repeat split; try congruence.
  - exists popped. exact Hq.
  - subst tr. simpl in Hrun. injection Hrun as <-. exact Hrun0.
  - subst tr. simpl in Hrun. injection Hrun as <-. reflexivity.
  - intros Hstill. unfold step, sourceThread, alive in *. simpl.
    rewrite Halive1, Hstill. simpl. eexists. split; [reflexivity |].
    simpl. rewrite Hback. reflexivity.
Qed.


(** C9: every [fwrite] of the sink thread requests the same number of bytes,
    [(U32) (fWidth * fHeight)] of the descriptor of the first frame ever
    acquired, and every complete record has exactly that length; the
    descriptors of later frames play no part. *)
Theorem frame_record_length s slot wanted wrote :
  reachable s ->
  In (slot, wanted, wrote) (written s) ->
  exists slot0 d0 later,
    acquired s = (slot0, d0) :: later /\
    wanted = frame_bytes d0 /\
    0 <= wrote <= frame_bytes d0 /\
    (complete (slot, wanted, wrote) = true -> wrote = frame_bytes d0).
Proof.
  intros Hreach Hin. pose proof (reachable_Inv _ Hreach) as Hinv.
  pose proof (inv_first _ Hinv) as Hfirst.
  pose proof (inv_written _ Hinv) as Hw.
  rewrite List.Forall_forall in Hw. specialize (Hw _ Hin). simpl in Hw.
  destruct (acquired s) as [| [slot0 d0] later].
  - destruct Hfirst as (_ & Hnil & _). rewrite Hnil in Hin. destruct Hin.
  - destruct Hfirst as (Hsize & _). rewrite Hsize in Hw.
    exists slot0, d0, later. repeat split; try lia.
    unfold complete. simpl. intros Heq. apply Z.eqb_eq in Heq. lia.
Qed.

(** *** The queue between the threads *)

(** The slot the sink is writing, if any. *)
Definition writing (pc : SinkPc) : list Z :=
  match pc with SinkWriting slot => [slot] | _ => [] end.

(** The slots handed over by the source and not yet written: the one in
    [fwrite], then the queue. *)
Definition in_flight (s : State) : list Z :=
  writing (sink_pc s) ++ s_frameQueue s.

Definition queue_bounded (s : State) : Prop :=
  Z.of_nat (length (s_frameQueue s)) <= BUFFER_SIZE - 3.

Lemma queue_bounded_step s e s' :
  queue_bounded s -> step e s = Some s' -> queue_bounded s'.
Proof.
  unfold queue_bounded. intros Hq Hstep.
  destruct e as [e | e | e]; simpl in Hstep;
    try (destruct (alive s); [| discriminate Hstep]).
  - step_inv Hstep; exact Hq.
  - unfold sourceThread in Hstep.
    destruct (source_pc s); destruct e as [[d |] |]; try discriminate Hstep;
      cbv zeta in Hstep.
    + injection Hstep as <-. exact Hq.
    + injection Hstep as <-. exact Hq.
    + destruct (is_running (s_status s)); injection Hstep as <-; exact Hq.
    + match type of Hstep with
      | context [if ?b then Some _ else Some _] => destruct b eqn:Hfull
      end; injection Hstep as <-.
      * destruct (_ =? _); exact Hq.
      * apply Z.leb_gt in Hfull.
        destruct (_ =? _); simpl in *; rewrite length_app; simpl; lia.
    + injection Hstep as <-. exact Hq.
  - revert Hq. step_inv Hstep; simpl; intros Hq; try exact Hq;
      repeat match goal with
             | H : s_frameQueue s = _ |- _ => rewrite H; clear H
             end;
      simpl in *; change BUFFER_SIZE with 16 in *; lia.
Qed.

Lemma reachable_queue_bounded s : reachable s -> queue_bounded s.
Proof.
  intros Hs. induction Hs as [| s e s' Hs IH Hstep] using reachable_ind.
  - unfold queue_bounded. simpl. change BUFFER_SIZE with 16. lia.
  - eapply queue_bounded_step; eassumption.
Qed.

Lemma in_flight_length s :
  queue_bounded s -> (length (in_flight s) <= 14)%nat.
Proof.
  unfold queue_bounded, in_flight. intros Hq. rewrite length_app.
  change BUFFER_SIZE with 16 in Hq.
  destruct (sink_pc s); simpl; lia.
Qed.

(** X3: in every reachable state the queue between the two threads holds at
    most [BUFFER_SIZE - 3] = 13 frames; with the frame in [fwrite], at most
    14 of the 16 buffers of the pool are handed over at any time. *)
Theorem queue_never_full s :
  reachable s ->
  Z.of_nat (length (s_frameQueue s)) <= BUFFER_SIZE - 3 /\
  (length (in_flight s) <= 14)%nat.
Proof.
  intros Hs. apply reachable_queue_bounded in Hs. split.
  - exact Hs.
  - apply in_flight_length. exact Hs.
Qed.

(** *** The pool is used round-robin *)

(** [n] successive slots of the pool, starting at [a], modulo the pool
    size. *)
Definition ring (a : Z) (n : nat) : list Z :=
  map (fun i => (a + Z.of_nat i) mod BUFFER_SIZE) (seq 0 n).

Lemma ring_length a n : length (ring a n) = n.
Proof. unfold ring. rewrite length_map, length_seq. reflexivity. Qed.

Lemma ring_back a n :
  ring a (S n) = ring a n ++ [(a + Z.of_nat n) mod BUFFER_SIZE].
Proof. unfold ring. rewrite seq_S, map_app. reflexivity. Qed.

Lemma ring_nth a n k :
  (k < n)%nat -> nth_error (ring a n) k = Some ((a + Z.of_nat k) mod BUFFER_SIZE).
Proof.
  intros Hk. unfold ring. rewrite nth_error_map.
  rewrite nth_error_seq. destruct (Nat.ltb_spec k n); [reflexivity | lia].
Qed.

Lemma tail_advance t :
  0 <= t < BUFFER_SIZE ->
  Z.land (wrap32 (t + 1)) BUFFER_SIZE_MASK = (t + 1) mod BUFFER_SIZE.
Proof.
  change BUFFER_SIZE with 16. intros Ht.
  rewrite wrap32_small by lia.
  change BUFFER_SIZE_MASK with (Z.ones 4). rewrite Z.land_ones by lia.
  reflexivity.
Qed.

Lemma tail_retreat slot :
  0 <= slot < BUFFER_SIZE ->
  Z.land (wrap32 ((slot + 1) mod BUFFER_SIZE - 1)) BUFFER_SIZE_MASK = slot.
Proof.
  intros Hs. rewrite <- (tail_advance slot Hs). apply tail_advance_undo.
  exact Hs.
Qed.

(** The frames acquired in the loop (all but the initial one). *)
Definition loop_frames (s : State) : list (Z * FRAME_DESC) := tl (acquired s).

(** The initial frame is in buffer 0, the frames of the loop are in
    successive buffers from buffer 0 on, and the write cursor follows
    them.  Only the source thread (and [main], before it creates the
    threads) touches the cursor and the pool. *)
Record Cursor (s : State) : Prop := {
  cur_first : forall f rest, acquired s = f :: rest -> fst f = 0;
  cur_slots : map fst (loop_frames s) = ring 0 (length (loop_frames s));
  cur_tail :
    match source_pc s with
    | SourceIdle | SourceAwaitingFirst => s_tail s = 0
    | SourceStreaming =>
        s_tail s = Z.of_nat (length (loop_frames s)) mod BUFFER_SIZE
    | SourceAcquiring slot =>
        slot = Z.of_nat (length (loop_frames s)) mod BUFFER_SIZE /\
        s_tail s = (slot + 1) mod BUFFER_SIZE
    | SourceStopped => True
    end
}.

Lemma Cursor_initial : Cursor initial.
Proof.
  constructor; simpl; [intros f rest H; discriminate H | reflexivity ..].
Qed.

Lemma Cursor_frame s s' :
  Cursor s ->
  acquired s' = acquired s -> s_tail s' = s_tail s ->
  source_pc s' = source_pc s ->
  Cursor s'.
Proof.
  intros [H1 H2 H3] Ha Ht Hp. unfold loop_frames in *.
  constructor; unfold loop_frames; rewrite ?Ha, ?Ht, ?Hp; assumption.
Qed.

Lemma Cursor_step s e s' :
  Inv s -> Cursor s -> step e s = Some s' -> Cursor s'.
Proof.
  intros Hinv Hcur Hstep.
  pose proof (inv_tail _ Hinv) as Ht.
  destruct e as [e | e | e]; simpl in Hstep;
    try (destruct (alive s); [| discriminate Hstep]).
  - (* main *)
    destruct (started (main_pc s)) eqn:Hst.
    + step_inv Hstep; simpl in Hst; try discriminate Hst;
        apply (Cursor_frame s); auto.
    + destruct (inv_idle _ Hinv Hst) as (Hsi & _).
      destruct Hcur as [H1 H2 H3]. rewrite Hsi in H3.
      step_inv Hstep; simpl in Hst; try discriminate Hst;
        constructor; unfold loop_frames in *; simpl; rewrite ?Hsi;
        try assumption; reflexivity.
  - (* the source thread *)
    destruct Hcur as [H1 H2 H3]. unfold loop_frames in *.
    pose proof (inv_first _ Hinv) as Hfirst.
    unfold sourceThread in Hstep.
    destruct (source_pc s) eqn:Hpc; destruct e as [[d |] |];
      try discriminate Hstep; cbv zeta in Hstep.
    + (* the first frame *)
      injection Hstep as <-.
      destruct (acquired s) as [| [slot0 d0] later] eqn:Hacq;
        [| destruct Hfirst as (_ & _ & Habs); congruence].
      constructor; unfold loop_frames; simpl; rewrite Hacq; simpl.
      * intros f rest Heq. injection Heq as <- _. exact H3.
      * reflexivity.
      * rewrite H3. reflexivity.
    + injection Hstep as <-.
      constructor; unfold loop_frames; simpl; auto.
    + (* the test of the loop *)
      destruct (is_running (s_status s)); injection Hstep as <-;
        constructor; unfold loop_frames; simpl; auto.
      split; [exact H3 |]. apply tail_advance. exact Ht.
    + (* the frame arrives *)
      destruct H3 as [Hslot Htail].
      destruct (acquired s) as [| [slot0 d0] later] eqn:Hacq;
        [destruct Hfirst as (_ & _ & _ & _ & _ & _ & _ & Habs);
         exfalso; apply (Habs slot); reflexivity |].
      simpl in H2, Hslot.
      assert (Hnext : (slot + 1) mod BUFFER_SIZE
                      = Z.of_nat (length (later ++ [(slot, d)]))
                        mod BUFFER_SIZE).
      { rewrite Hslot, length_app. simpl length.
        rewrite Nat2Z.inj_add. change (Z.of_nat 1) with 1.
        apply Z.add_mod_idemp_l. discriminate. }
      match type of Hstep with
      | context [if ?b then Some _ else Some _] => destruct b
      end; injection Hstep as <-;
        (constructor; unfold loop_frames;
         [ destruct (_ =? _); simpl; rewrite Hacq; simpl;
           intros f rest Heq; injection Heq as <- _;
           exact (H1 _ _ eq_refl)
         | destruct (_ =? _); simpl; rewrite Hacq; simpl;
           rewrite map_app, length_app, H2; simpl;
           rewrite Nat.add_1_r, ring_back, Hslot; reflexivity
         | ]).
      * exact I.
      * destruct (_ =? _); simpl; rewrite Hacq; simpl;
          rewrite Htail; exact Hnext.
    + (* the acquire fails *)
      destruct H3 as [Hslot Htail].
      assert (Hrange : 0 <= slot < BUFFER_SIZE).
      { rewrite Hslot. apply Z.mod_pos_bound. reflexivity. }
      injection Hstep as <-.
      constructor; unfold loop_frames; simpl; auto.
      rewrite Htail, tail_retreat by exact Hrange. exact Hslot.
  - (* the sink thread *)
    step_inv Hstep; apply (Cursor_frame s); auto.
Qed.

Lemma reachable_Cursor s : reachable s -> Cursor s.
Proof.
  intros Hs. induction Hs as [| s e s' Hs IH Hstep] using reachable_ind.
  - apply Cursor_initial.
  - eapply Cursor_step; [apply reachable_Inv | |]; eassumption.
Qed.

(** X4: the source thread uses the pool round-robin.  The initial frame is
    acquired into buffer 0 and the k-th frame of the loop into buffer
    (k - 1) mod 16 (a failed acquire does not advance); hence two frames
    of the loop that were acquired into the same buffer are at least 16
    frames apart: a buffer is refilled only after the 15 others were. *)
Theorem buffers_round_robin s :
  reachable s ->
  (forall f rest, acquired s = f :: rest -> fst f = 0) /\
  (forall k f, nth_error (loop_frames s) k = Some f ->
               fst f = Z.of_nat k mod BUFFER_SIZE) /\
  (forall i j f g,
     nth_error (loop_frames s) i = Some f ->
     nth_error (loop_frames s) j = Some g ->
     fst f = fst g -> (i < j)%nat -> (i + 16 <= j)%nat).
Proof.
  intros Hs. destruct (reachable_Cursor _ Hs) as [H1 H2 _].
  assert (Hnth : forall k f, nth_error (loop_frames s) k = Some f ->
                             fst f = Z.of_nat k mod BUFFER_SIZE).
  { intros k f Hk.
    assert (Hlt : (k < length (loop_frames s))%nat)
      by (apply nth_error_Some; rewrite Hk; discriminate).
    pose proof (ring_nth 0 _ k Hlt) as Hr. rewrite <- H2 in Hr.
    rewrite nth_error_map, Hk in Hr. simpl in Hr.
    injection Hr as ->. reflexivity. }
  split; [exact H1 |]. split; [exact Hnth |].
  intros i j f g Hi Hj Heq Hlt.
  apply Hnth in Hi. apply Hnth in Hj. rewrite Hi, Hj in Heq.
  change BUFFER_SIZE with 16 in Heq. Z.div_mod_to_equations. lia.
Qed.

(** *** After the status has left Running *)

(** Frames the capture loop may still queue: the one whose acquire is
    pending. *)
Definition pending (pc : SourcePc) : nat :=
  match pc with SourceAcquiring _ => 1%nat | _ => 0%nat end.

(** Writes the sink thread may still make without testing the status
    again: the one of the iteration it is in. *)
Definition in_iteration (pc : SinkPc) : nat :=
  match pc with
  | SinkChecking | SinkFetching | SinkErasing _ | SinkWriting _ => 1%nat
  | _ => 0%nat
  end.

(** The sink thread is in an iteration and has not yet popped. *)
Definition about_to_pop (pc : SinkPc) : bool :=
  match pc with
  | SinkChecking | SinkFetching | SinkErasing _ => true
  | _ => false
  end.

Lemma stopped_step e s s' :
  Inv s -> step e s = Some s' ->
  s_status s <> STATUS_RUNNING ->
  (exists late, written s' = written s ++ late /\
     (length late + in_iteration (sink_pc s')
      <= in_iteration (sink_pc s))%nat) /\
  (about_to_pop (sink_pc s) = false ->
   about_to_pop (sink_pc s') = false /\
   (exists more, s_frameQueue s' = s_frameQueue s ++ more) /\
   (length (s_frameQueue s') + pending (source_pc s')
    <= length (s_frameQueue s) + pending (source_pc s))%nat).
Proof.
  intros Hinv Hstep Hterm.
  assert (Hnot : is_running (s_status s) = false)
    by (destruct (s_status s); [contradiction | reflexivity ..]).
  destruct e as [e | e | e]; simpl in Hstep;
    try (destruct (alive s); [| discriminate Hstep]).
  - (* main *)
    destruct (started (main_pc s)) eqn:Hst;
      [| destruct (inv_idle _ Hinv Hst) as (_ & _ & Hrun); contradiction].
    step_inv Hstep; simpl in Hst; try discriminate Hst; try congruence;
      simpl; (split; [exists nil; rewrite app_nil_r; split;
                      [reflexivity | simpl; lia] |]);
      intros Hpop; (split; [exact Hpop |]);
      (split; [exists nil; rewrite app_nil_r; reflexivity | lia]).
  - (* the source thread *)
    unfold sourceThread in Hstep. rewrite Hnot in Hstep.
    destruct (source_pc s) eqn:Hpc; destruct e as [[d |] |];
      try discriminate Hstep; cbv zeta in Hstep;
      try match type of Hstep with
          | context [if ?b then Some _ else Some _] => destruct b
          end;
      injection Hstep as <-.
    all: try match goal with
             | |- context [if ?b then _ else _] => destruct b
             end.
    all: simpl; (split; [exists nil; rewrite app_nil_r; split;
                         [reflexivity | simpl; lia] |]);
      intros Hpop; (split; [exact Hpop |]).
    all: first [ split; [exists nil; rewrite app_nil_r; reflexivity | lia]
               | split; [eexists; reflexivity
                        | rewrite length_app; simpl; lia] ].
  - (* the sink thread *)
    unfold sinkThread in Hstep. rewrite Hnot in Hstep.
    destruct (sink_pc s) eqn:Hpc; destruct e as [ok | | | | | n |];
      try discriminate Hstep.
    + (* fopen *)
      destruct ok; injection Hstep as <-; simpl;
        (split; [exists nil; rewrite app_nil_r; split;
                 [reflexivity | simpl; lia] |]);
        intros _; (split; [reflexivity |]);
        (split; [exists nil; rewrite app_nil_r; reflexivity | lia]).
    + (* the test of the loop fails *)
      injection Hstep as <-; simpl;
        (split; [exists nil; rewrite app_nil_r; split;
                 [reflexivity | simpl; lia] |]);
        intros _; (split; [reflexivity |]);
        (split; [exists nil; rewrite app_nil_r; reflexivity | lia]).
    + (* empty () *)
      destruct (s_frameQueue s); injection Hstep as <-; simpl;
        (split; [exists nil; rewrite app_nil_r; split;
                 [reflexivity | simpl; lia] |]);
        intros Hpop; discriminate Hpop.
    + (* operator[] *)
      destruct (s_frameQueue s); [discriminate Hstep |].
      injection Hstep as <-; simpl;
        (split; [exists nil; rewrite app_nil_r; split;
                 [reflexivity | simpl; lia] |]);
        intros Hpop; discriminate Hpop.
    + (* erase *)
      destruct (s_frameQueue s); [discriminate Hstep |].
      injection Hstep as <-; simpl;
        (split; [exists nil; rewrite app_nil_r; split;
                 [reflexivity | simpl; lia] |]);
        intros Hpop; discriminate Hpop.
    + (* fwrite *)
      destruct ((0 <=? n) && (n <=? s_frameSize s)); [| discriminate Hstep].
      cbv zeta in Hstep.
      destruct (negb (n =? _)) in Hstep;
        [| destruct (MAX_IMAGES <=? _) in Hstep];
        injection Hstep as <-; simpl;
        (split; [eexists; split; [reflexivity | simpl; lia] |]);
        intros _; (split; [reflexivity |]);
        (split; [exists nil; rewrite app_nil_r; reflexivity | lia]).
    + (* fclose of the null pointer *)
      injection Hstep as <-; simpl; rewrite Hpc;
        (split; [exists nil; rewrite app_nil_r; split;
                 [reflexivity | simpl; lia] |]);
        intros _; (split; [reflexivity |]);
        (split; [exists nil; rewrite app_nil_r; reflexivity | lia]).
Qed.

(** X7: once the status is no longer Running, the sink thread makes no
    further [fwrite], unless it has already passed the test of its loop:
    then it makes at most one, for the frame of the iteration it is in.
    The frames still queued are never written.  And when the sink thread is
    not about to pop, the queue is not drained any more, and at most the
    frame of a pending acquire is appended to it. *)
Theorem stop_discards_queue s tr s' :
  reachable s -> run tr s = Some s' ->
  s_status s <> STATUS_RUNNING ->
  (exists late,
     written s' = written s ++ late /\
     (length late <= in_iteration (sink_pc s))%nat) /\
  (about_to_pop (sink_pc s) = false ->
   exists more,
     s_frameQueue s' = s_frameQueue s ++ more /\
     (length more <= pending (source_pc s))%nat).
Proof.
  intros Hs Hrun Hterm.
  assert (H :
    (exists late, written s' = written s ++ late /\
       (length late + in_iteration (sink_pc s')
        <= in_iteration (sink_pc s))%nat) /\
    (about_to_pop (sink_pc s) = false ->
     about_to_pop (sink_pc s') = false /\
     (exists more, s_frameQueue s' = s_frameQueue s ++ more) /\
     (length (s_frameQueue s') + pending (source_pc s')
      <= length (s_frameQueue s) + pending (source_pc s))%nat)).
  { revert s Hs Hrun Hterm.
    induction tr as [| e tr IH]; intros s Hs Hrun Hterm; simpl in Hrun.
    - injection Hrun as <-. split.
      + exists nil. rewrite app_nil_r. split; [reflexivity | simpl; lia].
      + intros Hpop. split; [exact Hpop |].
        split; [exists nil; rewrite app_nil_r; reflexivity | lia].
    - destruct (step e s) as [s1 |] eqn:Hstep; [| discriminate Hrun].
      pose proof (reachable_Inv _ Hs) as Hinv.
      destruct (stopped_step _ _ _ Hinv Hstep Hterm)
        as ((late1 & Hw1 & Hl1) & Hq1).
      destruct (IH s1) as ((late & Hw & Hl) & Hq);
        [eapply reachable_step; eassumption | exact Hrun
        | eapply terminal_step; eassumption |].
      split.
      + exists (late1 ++ late). rewrite Hw, Hw1, app_assoc.
        split; [reflexivity |]. rewrite length_app. lia.
      + intros Hpop.
        destruct (Hq1 Hpop) as (Hpop1 & (m1 & Hm1) & Hlen1).
        destruct (Hq Hpop1) as (Hpop2 & (m & Hm) & Hlen).
        split; [exact Hpop2 |]. split; [| lia].
        exists (m1 ++ m). rewrite Hm, Hm1, app_assoc. reflexivity. }
  destruct H as ((late & Hw & Hl) & Hq). split.
  - exists late. split; [exact Hw | lia].
  - intros Hpop. destruct (Hq Hpop) as (_ & (more & Hm) & Hlen).
    exists more. split; [exact Hm |].
    rewrite Hm, length_app in Hlen. lia.
Qed.

(** *** The size of the file *)





(** *** Reports of missed frames *)

Definition is_gap_report (m : Msg) : bool :=
  match m with MsgExpectedFrame _ _ => true | _ => false end.

(** The reports a sequence of frame numbers calls for: one for each frame
    whose number is not the number of the frame before it plus one (as a
    32-bit unsigned). *)
Fixpoint gap_reports (l : list Z) : list Msg :=
  match l with
  | x :: ((y :: _) as l') =>
      (if y =? wrap32 (x + 1) then []
       else [MsgExpectedFrame (wrap32 (x + 1)) y]) ++ gap_reports l'
  | _ => []
  end.

Definition frame_number (f : Z * FRAME_DESC) : Z := uFrameNumber (snd f).

Lemma gap_reports_snoc l x y :
  gap_reports (l ++ [x; y]) =
  gap_reports (l ++ [x]) ++
  (if y =? wrap32 (x + 1) then [] else [MsgExpectedFrame (wrap32 (x + 1)) y]).
Proof.
  induction l as [| a l IH].
  - simpl. rewrite app_nil_r. reflexivity.
  - destruct l as [| b l].
    + simpl. rewrite !app_nil_r. reflexivity.
    + change (gap_reports ((a :: b :: l) ++ [x; y]))
        with ((if b =? wrap32 (a + 1) then []
               else [MsgExpectedFrame (wrap32 (a + 1)) b]) ++
              gap_reports ((b :: l) ++ [x; y])).
      change (gap_reports ((a :: b :: l) ++ [x]))
        with ((if b =? wrap32 (a + 1) then []
               else [MsgExpectedFrame (wrap32 (a + 1)) b]) ++
              gap_reports ((b :: l) ++ [x])).
      rewrite IH, app_assoc. reflexivity.
Qed.

Record Gaps (s : State) : Prop := {
  gaps_console :
    List.filter is_gap_report (console s)
    = gap_reports (map frame_number (acquired s));
  gaps_tracker :
    forall l f, acquired s = l ++ [f] ->
                s_expectedFrameNumber s = wrap32 (frame_number f + 1)
}.

Lemma Gaps_frame s s' :
  Gaps s ->
  acquired s' = acquired s ->
  s_expectedFrameNumber s' = s_expectedFrameNumber s ->
  List.filter is_gap_report (console s')
  = List.filter is_gap_report (console s) ->
  Gaps s'.
Proof.
  intros [Hc Ht] Ha He Hf. constructor.
  - rewrite Hf, Ha. exact Hc.
  - rewrite Ha, He. exact Ht.
Qed.

Lemma filter_report_snoc l m :
  List.filter is_gap_report (l ++ [m]) =
  List.filter is_gap_report l ++ (if is_gap_report m then [m] else []).
Proof. rewrite List.filter_app. simpl. destruct (is_gap_report m); reflexivity. Qed.

Ltac gaps_same s :=
  apply (Gaps_frame s); auto;
  simpl; rewrite ?filter_report_snoc; simpl; rewrite ?app_nil_r; reflexivity.

Lemma Gaps_step s e s' : Inv s -> Gaps s -> step e s = Some s' -> Gaps s'.
Proof.
  intros Hinv Hgaps Hstep.
  destruct e as [e | e | e]; simpl in Hstep;
    try (destruct (alive s); [| discriminate Hstep]).
  - step_inv Hstep; gaps_same s.
  - unfold sourceThread in Hstep.
    destruct (source_pc s) eqn:Hpc; destruct e as [[d |] |];
      try discriminate Hstep; cbv zeta in Hstep.
    + (* the first frame *)
      injection Hstep as <-.
      pose proof (inv_first _ Hinv) as Hfirst.
      destruct Hgaps as [Hc _].
      destruct (acquired s) as [| [slot0 d0] later] eqn:Hacq;
        [| destruct Hfirst as (_ & _ & Habs); congruence].
      constructor; simpl; rewrite Hacq; simpl.
      * exact Hc.
      * intros l f Hl. destruct l as [| f' l]; simpl in Hl.
        -- injection Hl as <-. reflexivity.
        -- destruct l; discriminate Hl.
    + injection Hstep as <-. gaps_same s.
    + destruct (is_running (s_status s)); injection Hstep as <-; gaps_same s.
    + (* the frame arrives *)
      pose proof (inv_first _ Hinv) as Hfirst.
      destruct Hgaps as [Hc Ht].
      destruct (exists_last (l := acquired s)) as (l & f & Hacq).
      { intros Hnil. rewrite Hnil in Hfirst.
        destruct Hfirst as (_ & _ & _ & _ & _ & _ & _ & Habs).
        apply (Habs slot). exact Hpc. }
      specialize (Ht _ _ Hacq).
      assert (Hnew :
        forall l' f', (acquired s ++ [(slot, d)]) = l' ++ [f'] ->
                      wrap32 (uFrameNumber d + 1) = wrap32 (frame_number f' + 1)).
      { intros l' f' Hl. apply app_inj_tail in Hl. destruct Hl as [_ <-].
        reflexivity. }
      assert (Hreports :
        gap_reports (map frame_number (acquired s ++ [(slot, d)])) =
        List.filter is_gap_report (console s) ++
        (if uFrameNumber d =? s_expectedFrameNumber s then []
         else [MsgExpectedFrame (s_expectedFrameNumber s) (uFrameNumber d)])).
      { rewrite Hc, Hacq, !map_app. simpl. rewrite <- app_assoc. simpl.
        rewrite gap_reports_snoc, Ht. reflexivity. }
      change (s_expectedFrameNumber (fill_slot slot d s))
        with (s_expectedFrameNumber s) in Hstep.
      destruct (uFrameNumber d =? s_expectedFrameNumber s);
        match type of Hstep with
        | context [if ?b then Some _ else Some _] => destruct b
        end; injection Hstep as <-; (constructor; [| exact Hnew]);
        simpl; simpl in Hreports; rewrite Hreports;
        rewrite ?filter_report_snoc; simpl; rewrite ?app_nil_r; reflexivity.
    + injection Hstep as <-. gaps_same s.
  - unfold sinkThread in Hstep.
    destruct (sink_pc s) eqn:Hpc; destruct e as [ok | | | | | n |];
      try discriminate Hstep.
    + destruct ok; injection Hstep as <-; gaps_same s.
    + step_inv Hstep; gaps_same s.
    + step_inv Hstep; gaps_same s.
    + step_inv Hstep; gaps_same s.
    + step_inv Hstep; gaps_same s.
    + destruct ((0 <=? n) && (n <=? s_frameSize s)); [| discriminate Hstep].
      cbv zeta in Hstep.
      destruct (negb (n =? _)) in Hstep;
        [| destruct (MAX_IMAGES <=? _) in Hstep];
        injection Hstep as <-; gaps_same s.
    + step_inv Hstep; gaps_same s.
Qed.

(** X9: the capture loop reports exactly the discontinuities of the frame
    numbers: the [MsgExpectedFrame] lines on the console are, in order, one
    for each acquired frame whose number is not its predecessor's number
    plus one (the initial frame is never reported, and failed acquires
    change nothing); and the tracker holds the number of the last acquired
    frame plus one. *)
Theorem gaps_reported_once s :
  reachable s ->
  List.filter is_gap_report (console s)
  = gap_reports (map frame_number (acquired s)) /\
  forall l f, acquired s = l ++ [f] ->
              s_expectedFrameNumber s = wrap32 (frame_number f + 1).
Proof.
  intros Hs.
  assert (H : Gaps s).
  { induction Hs as [| s e s' Hs IH Hstep] using reachable_ind.
    - constructor; [reflexivity |].
      intros l f Hl. destruct l; discriminate Hl.
    - eapply Gaps_step; [apply reachable_Inv | |]; eassumption. }
  destruct H as [Hc Ht]. split; assumption.
Qed.

End Pipeline.

(** *** Concrete executions *)

(** For concrete executions the image dimensions are integers and their
    product is exact. *)
Definition exact_pixels : Float32 :=
  {| F32 := Z; f32_mul := Z.mul; f32_to_U32 := fun z => z |}.

#[local] Existing Instance exact_pixels.

(** A 640 x 480 frame with sequence number [n]. *)
Definition frame (n : Z) : FRAME_DESC :=
  {| uFrameNumber := n; Roi := {| fWidth := 640; fHeight := 480 |} |}.

(** One camera found, initialised and streaming; both threads created. *)
Definition startup : list Event :=
  [EvMain (GetNumberCameras true 1); EvMain (Initialize true);
   EvMain (StartStream true)].

(** One iteration of the capture loop that acquires frame [n]. *)
Definition grab (n : Z) : list Event :=
  [EvSource SourceLoop; EvSource (GetNextFrame (Some (frame n)))].

(** The sink passes the test of its loop, finds the queue not empty, reads
    its first entry and erases it. *)
Definition pop : list Event :=
  [EvSink SinkLoop; EvSink SinkEmpty; EvSink SinkFront; EvSink SinkErase].

(** One iteration of the persistence loop that writes a whole frame. *)
Definition persist : list Event := pop ++ [EvSink (Fwrite (640 * 480))].

(** The sink never runs while the source acquires frames 1 to 14: frame 1
    is the initial frame, frames 2 to 14 are queued. *)
Definition stalled_sink : list Event :=
  startup ++ [EvSource (GetNextFrame (Some (frame 1)))] ++
  flat_map grab [2; 3; 4; 5; 6; 7; 8; 9; 10; 11; 12; 13; 14].

(** The sink keeps pace with the source for 33 frames. *)
Definition keeping_pace : list Event :=
  startup ++ [EvSource (GetNextFrame (Some (frame 1))); EvSink (Fopen true)] ++
  flat_map (fun n => grab n ++ persist) (map Z.of_nat (seq 2 33)).

Definition state_after (tr : list Event) : State :=
  match run tr initial with Some s => s | None => initial end.

Ltac evaluate := vm_compute; first [reflexivity | discriminate].
Ltac evaluate_all :=
  repeat first [ progress intros | match goal with |- _ /\ _ => split end ];
  evaluate.

Example stalled_sink_queue :
  s_frameQueue (state_after stalled_sink) =
  [0; 1; 2; 3; 4; 5; 6; 7; 8; 9; 10; 11; 12].
Proof. evaluate. Qed.

Example keeping_pace_file :
  file_pos (state_after keeping_pace) = 640 * 480 /\
  file_size (state_after keeping_pace) = 32 * (640 * 480).
Proof. evaluate_all. Qed.



(** C3 (counterexample): right after the threads are created ([s]), a failed
    first acquire ([s1]) and a failed [fopen] ([s2]) both set
    [STATUS_ERROR]; so does a short write later on ([s3] to [s4]).  The
    fatal conditions do not set distinct statuses. *)
Lemma fatal_statuses_coincide :
  let s := state_after startup in
  let s1 := state_after (startup ++ [EvSource (GetNextFrame None)]) in
  let s2 := state_after (startup ++ [EvSink (Fopen false)]) in
  let writing := startup ++ [EvSource (GetNextFrame (Some (frame 1)));
                             EvSink (Fopen true)] ++ grab 2 ++ pop in
  let s3 := state_after writing in
  let s4 := state_after (writing ++ [EvSink (Fwrite 100)]) in
  run startup initial = Some s /\
  step (EvSource (GetNextFrame None)) s = Some s1 /\
  step (EvSink (Fopen false)) s = Some s2 /\
  s_status s1 = STATUS_ERROR /\
  s_status s2 = STATUS_ERROR /\
  run writing initial = Some s3 /\
  step (EvSink (Fwrite 100)) s3 = Some s4 /\
  s_status s4 = STATUS_ERROR.
Proof. evaluate_all. Qed.

Lemma fatal_conditions_witness :
  exists s',
    step (EvSink (Fopen false)) (state_after startup) = Some s' /\
    s_status s' = STATUS_ERROR /\
    STATUS_ERROR <> STATUS_RUNNING /\
    thread_stopped (EvSink (Fopen false)) s'.
Proof.
  apply (proj1 fatal_conditions (state_after startup)).
  - evaluate.
  - constructor. evaluate.
Defined.

(** C4 (counterexample): the user stops the pipeline while the source thread
    is still blocked in its first acquire; [main] sets
    [STATUS_USER_STOPPED] and stops the stream ([s1]); the pending acquire
    then fails and the source thread overwrites the status with
    [STATUS_ERROR] ([s2]). *)
Lemma user_stop_overwritten :
  let stopping := startup ++ [EvMain Slept; EvMain LoopTest;
                              EvMain (Kbhit true); EvMain StopStream] in
  let s1 := state_after stopping in
  let s2 := state_after (stopping ++ [EvSource (GetNextFrame None)]) in
  run stopping initial = Some s1 /\
  s_status s1 = STATUS_USER_STOPPED /\
  step (EvSource (GetNextFrame None)) s1 = Some s2 /\
  s_status s2 = STATUS_ERROR.
Proof. evaluate_all. Qed.

Lemma status_never_reverts_witness :
  s_status (state_after (startup ++ [EvMain Slept; EvMain LoopTest;
                                     EvMain (Kbhit true);
                                     EvMain StopStream;
                                     EvSource (GetNextFrame None)]))
  <> STATUS_RUNNING.
Proof.
  apply (proj2 status_never_reverts
           (state_after (startup ++ [EvMain Slept; EvMain LoopTest;
                                     EvMain (Kbhit true)]))
           [EvMain StopStream; EvSource (GetNextFrame None)]).
  - exists (startup ++ [EvMain Slept; EvMain LoopTest; EvMain (Kbhit true)]).
    evaluate.
  - evaluate.
  - evaluate.
Defined.

(** C5 (the code at the failing inputs): when no camera is found, when the
    camera cannot be initialised, when the stream cannot be started, and
    when the pipeline ends with [STATUS_ERROR] or [STATUS_SINK_OVERRUN],
    [main] returns 0. *)
Theorem error_paths_exit_code :
  main_pc (state_after [EvMain (GetNumberCameras true 0)]) = MainExited 0 /\
  main_pc (state_after [EvMain (GetNumberCameras true 1);
                        EvMain (Initialize false)]) = MainExited 0 /\
  main_pc (state_after [EvMain (GetNumberCameras true 1);
                        EvMain (Initialize true);
                        EvMain (StartStream false)]) = MainExited 0 /\
  (let s := state_after (startup ++ [EvSource (GetNextFrame None);
                                     EvMain Slept]) in
   s_status s = STATUS_ERROR /\ main_pc s = MainExited 0) /\
  (let s := state_after (stalled_sink ++ [EvMain Slept] ++ grab 15 ++
                         [EvMain LoopTest; EvMain StopStream;
                          EvMain Slept]) in
   s_status s = STATUS_SINK_OVERRUN /\ main_pc s = MainExited 0).
Proof. evaluate_all. Qed.

Lemma acquire_failure_recycles_witness :
  let s0 := state_after (startup ++ [EvSource (GetNextFrame (Some (frame 1)))]) in
  let s2 := state_after (startup ++ [EvSource (GetNextFrame (Some (frame 1)));
                                     EvSource SourceLoop; EvSink (Fopen true);
                                     EvSource (GetNextFrame None)]) in
  s_tail s2 = s_tail s0 /\
  s_expectedFrameNumber s2 = s_expectedFrameNumber s0 /\
  s_status s2 = STATUS_RUNNING /\
  source_pc s2 = SourceStreaming.
Proof.
  intros s0 s2.
  pose proof (acquire_failure_recycles s0
    (state_after (startup ++ [EvSource (GetNextFrame (Some (frame 1)));
                              EvSource SourceLoop]))
    [EvSink (Fopen true)]
    (state_after (startup ++ [EvSource (GetNextFrame (Some (frame 1)));
                              EvSource SourceLoop; EvSink (Fopen true)]))
    s2) as H.
  destruct H as (_ & Ht & He & _ & _ & _ & Hst & _ & _ & Hpc & _).
  - exists (startup ++ [EvSource (GetNextFrame (Some (frame 1)))]).
    evaluate.
  - evaluate.
  - evaluate.
  - repeat constructor.
  - evaluate.
  - evaluate.
  - split; [exact Ht | split; [exact He | split; [| exact Hpc]]].
    evaluate.
Defined.


Lemma frame_record_length_witness :
  exists slot0 d0 later,
    acquired (state_after keeping_pace) = (slot0, d0) :: later /\
    640 * 480 = frame_bytes d0 /\
    0 <= 640 * 480 <= frame_bytes d0 /\
    (complete (0, 640 * 480, 640 * 480) = true -> 640 * 480 = frame_bytes d0).
Proof.
  apply (frame_record_length (state_after keeping_pace) 0).
  - exists keeping_pace. evaluate.
  - vm_compute. left. reflexivity.
Defined.

(** Two frames are queued when the user stops the pipeline; the sink is at
    the test of its loop. *)
Definition stopped_with_queue : list Event :=
  startup ++ [EvSource (GetNextFrame (Some (frame 1))); EvSink (Fopen true)] ++
  grab 2 ++ grab 3 ++ [EvMain Slept; EvMain LoopTest; EvMain (Kbhit true)].

(** The same, but the sink has passed the test of its loop before the user
    stops the pipeline. *)
Definition stopped_in_iteration : list Event :=
  startup ++ [EvSource (GetNextFrame (Some (frame 1))); EvSink (Fopen true)] ++
  grab 2 ++ grab 3 ++
  [EvMain Slept; EvMain LoopTest; EvSink SinkLoop; EvMain (Kbhit true)].

(** Frames 3 and 4 are missed, and so are frames 6 to 8. *)
Definition skipping : list Event :=
  startup ++ [EvSource (GetNextFrame (Some (frame 1)))] ++
  grab 2 ++ grab 5 ++ [EvSource SourceLoop; EvSource (GetNextFrame None)] ++
  grab 9 ++ grab 10.

Example skipping_console :
  console (state_after skipping) =
  [MsgExpectedFrame 3 5; MsgCouldNotGetFrame; MsgExpectedFrame 6 9].
Proof. evaluate. Qed.

(** When [fopen] fails, the sink thread stores [STATUS_ERROR] and goes to
    its [fclose], which ends the process. *)
Example fopen_failure_kills :
  let s := state_after (startup ++ [EvSink (Fopen false)]) in
  let s' := state_after (startup ++ [EvSink (Fopen false); EvSink Fclose]) in
  s_status s = STATUS_ERROR /\ sink_pc s = SinkClosingNull /\
  step (EvSink Fclose) s = Some s' /\ main_pc s' = MainKilled /\
  alive s' = false.
Proof. evaluate_all. Qed.

(** A sink thread that has passed the test of its loop when the user stops
    the pipeline still pops a frame and writes it; the next test ends its
    loop, with one frame left in the queue. *)
Example write_after_stop :
  let s := state_after stopped_in_iteration in
  let s' := state_after (stopped_in_iteration ++
                         [EvSink SinkEmpty; EvSink SinkFront; EvSink SinkErase;
                          EvSink (Fwrite (640 * 480)); EvSink SinkLoop]) in
  run stopped_in_iteration initial = Some s /\
  s_status s = STATUS_USER_STOPPED /\ written s = [] /\
  s_frameQueue s = [0; 1] /\
  written s' = [(0, 640 * 480, 640 * 480)] /\
  s_frameQueue s' = [1] /\ sink_pc s' = SinkStopped.
Proof. evaluate_all. Qed.

(** The status stored by a thread can be overwritten by [main]: the source
    thread stores [STATUS_ERROR] after [main] has tested the status and
    before it stores [STATUS_USER_STOPPED]. *)
Example error_overwritten_by_stop :
  let tr := startup ++ [EvMain Slept; EvMain LoopTest;
                        EvSource (GetNextFrame None)] in
  run tr initial = Some (state_after tr) /\
  s_status (state_after tr) = STATUS_ERROR /\
  s_status (state_after (tr ++ [EvMain (Kbhit true)])) = STATUS_USER_STOPPED.
Proof. evaluate_all. Qed.

Lemma queue_never_full_witness :
  Z.of_nat (length (s_frameQueue (state_after stalled_sink)))
  <= BUFFER_SIZE - 3 /\
  (length (in_flight (state_after stalled_sink)) <= 14)%nat.
Proof.
  apply (queue_never_full (state_after stalled_sink)).
  exists stalled_sink. evaluate.
Defined.

Lemma buffers_round_robin_witness :
  (forall f rest,
     acquired (state_after keeping_pace) = f :: rest -> fst f = 0) /\
  (forall k f,
     nth_error (loop_frames (state_after keeping_pace)) k = Some f ->
     fst f = Z.of_nat k mod BUFFER_SIZE) /\
  (forall i j f g,
     nth_error (loop_frames (state_after keeping_pace)) i = Some f ->
     nth_error (loop_frames (state_after keeping_pace)) j = Some g ->
     fst f = fst g -> (i < j)%nat -> (i + 16 <= j)%nat).
Proof.
  apply (buffers_round_robin (state_after keeping_pace)).
  exists keeping_pace. evaluate.
Defined.

Lemma stop_discards_queue_witness :
  (exists late,
     written (state_after (stopped_with_queue ++
                           [EvSink SinkLoop; EvSource SourceLoop;
                            EvMain StopStream]))
     = written (state_after stopped_with_queue) ++ late /\
     (length late
      <= in_iteration (sink_pc (state_after stopped_with_queue)))%nat) /\
  (about_to_pop (sink_pc (state_after stopped_with_queue)) = false ->
   exists more,
     s_frameQueue (state_after (stopped_with_queue ++
                                [EvSink SinkLoop; EvSource SourceLoop;
                                 EvMain StopStream]))
     = s_frameQueue (state_after stopped_with_queue) ++ more /\
     (length more <= pending (source_pc (state_after stopped_with_queue)))%nat).
Proof.
  apply (stop_discards_queue (state_after stopped_with_queue)
           [EvSink SinkLoop; EvSource SourceLoop; EvMain StopStream]).
  - exists stopped_with_queue. evaluate.
  - evaluate.
  - evaluate.
Defined.


Lemma gaps_reported_once_witness :
  List.filter is_gap_report (console (state_after skipping))
  = gap_reports (map frame_number (acquired (state_after skipping))) /\
  forall l f, acquired (state_after skipping) = l ++ [f] ->
              s_expectedFrameNumber (state_after skipping)
              = wrap32 (frame_number f + 1).
Proof.
  apply (gaps_reported_once (state_after skipping)).
  exists skipping. evaluate.
Defined.

End ImageWriter.

(** ** captureOEM/src/helpers.cpp: camera configuration files *)

Module ConfigFile.

Definition PXL_CONFIG_FILE_MAGIC_NUMBER : Z := 0x41513879.

(** [struct FeatureData] followed by its extra parameters: [params] holds
    [param1] and the [nParams - 1] floats after the struct.  A float is its
    32-bit pattern. *)
Record FeatureData := {
  featureId : Z;
  flags : Z;
  nParams : Z;
  params : list Z
}.

(** The 32-bit cells of a record in the buffer: it occupies
    [sizeof (FeatureData) + (nParams - 1) * sizeof (float)] bytes. *)
Definition cells (r : FeatureData) : list Z :=
  [featureId r; flags r; nParams r] ++ params r.

(** One call of [PxLSetFeature] made by the reader. *)
Record SetFeature := {
  set_featureId : Z;
  set_flags : Z;
  set_nParams : Z;
  set_params : list Z
}.

(** The locals of Step 1 of [WriteConfigFile]. *)
Record Sizes := {
  nSupported : Z;       (* int *)
  nExtraParams : Z;     (* int *)
  numGpios : Z          (* int *)
}.

(** How [WriteConfigFile] ends.  [ASSERT] is [assert] (pxlport.h). *)
Inductive Written :=
| Crashed                     (* the ASSERT of Step 5 fails, or [pbuf] left the buffer *)
| Returned (ok : bool)        (* it returned [ok] without producing a whole file *)
| Produced (file : list Z).   (* it returned true; [file] is what is on disk *)

(** Memory written through a pointer to [old]: the callee writes the
    floats [new], at most as many as the caller announced. *)
Definition overlay (new old : list Z) : list Z :=
  firstn (length old) new ++ skipn (length new) old.

Section Camera.

(** Constants of the vendor's header. *)
Variables FEATURES_TOTAL FEATURE_GPIO FEATURE_MEMORY_CHANNEL : Z.

(** The bit pattern of [static_cast<float> (n)]. *)
Variable float_of_int : Z -> Z.

(** The vendor's [PxLGetFeature (h, featureId, &flags, &nParams, params)]:
    given the handle, the feature, the value of [nParams] and the content of
    the parameter array on entry, the values of [flags] and [nParams] and
    the floats written on return.  Its return code is ignored by the
    callers embedded here. *)
Variable HANDLE : Type.
Variable PxLGetFeature : HANDLE -> Z -> Z -> list Z -> Z * Z * list Z.

(** The class [PxLCamera], as far as the two functions use it.
    [getGpioRange] gives whether the call returned [ApiSuccess] and the value
    left in [numGpios]. *)
Record PxLCamera := {
  getHandle : HANDLE;
  supported : Z -> bool;
  manualSupported : Z -> bool;
  numParametersSupported : Z -> Z;      (* U32 *)
  getGpioRange : bool * Z
}.

(** [0, 1, ..., FEATURES_TOTAL - 1]. *)
Definition feature_ids : list Z :=
  map Z.of_nat (seq 0 (Z.to_nat FEATURES_TOTAL)).

(** *** WriteConfigFile *)

(** Step 1, body of the loop. *)
Definition count_feature (camera : PxLCamera) (a : Sizes) (id : Z) : Sizes :=
  if negb (supported camera id) then a
  else if id =? FEATURE_MEMORY_CHANNEL then a
  else
    let '(num, gpios) :=
      if id =? FEATURE_GPIO
      then let '(ok, n) := getGpioRange camera in
           (if ok then n else 1, n)
      else (1, numGpios a) in
    let pcount := numParametersSupported camera id in
    {| nSupported := to_int32 (nSupported a + num);
       nExtraParams := to_int32 (nExtraParams a + num * wrap32 (pcount - 1));
       numGpios := gpios |}.

(** The record filled for one feature: [featureId] and [nParams] are set,
    [param1] holds [param1_in] (0 from the zeroed vector, or the GPIO
    number), then [PxLGetFeature] writes [flags], [nParams] and floats. *)
Definition get_record (camera : PxLCamera) (id pcount param1_in : Z)
  : FeatureData :=
  let params_in :=
    overlay [param1_in] (repeat 0 (Z.to_nat pcount)) in
  let '(fl, n, ps) :=
    PxLGetFeature (getHandle camera) id pcount params_in in
  {| featureId := wrap32 id;
     flags := fl;
     nParams := n;
     params := overlay ps params_in |}.

(** [for (gpioNum = 1; gpioNum <= numGpios; ++gpioNum)]. *)
Definition gpio_numbers (gpios : Z) : list Z :=
  map Z.of_nat (seq 1 (Z.to_nat gpios)).

(** Step 4, body of the loop: the records written for one feature, or
    [None] when a record is written for a feature without parameters (then
    [pbuf += sizeof (FeatureData) + (pcount - 1) * sizeof (float)] moves the
    pointer out of the buffer). *)
Definition feature_records (camera : PxLCamera) (gpios id : Z)
  : option (list FeatureData) :=
  if negb (supported camera id) then Some []
  else if id =? FEATURE_MEMORY_CHANNEL then Some []
  else
    let pcount := numParametersSupported camera id in
    let param1s :=
      if id =? FEATURE_GPIO
      then map float_of_int (gpio_numbers gpios)
      else [0] in
    match param1s with
    | [] => Some []
    | _ => if 1 <=? pcount
           then Some (map (get_record camera id pcount) param1s)
           else None
    end.

Fixpoint write_features (camera : PxLCamera) (gpios : Z) (ids : list Z)
  : option (list FeatureData) :=
  match ids with
  | [] => Some []
  | id :: rest =>
      match feature_records camera gpios id,
            write_features camera gpios rest with
      | Some here, Some after => Some (here ++ after)
      | _, _ => None
      end
  end.

(** [fopen_ok]: [fopen] succeeded; [fwrite_ok]: [fwrite] accepted the
    whole buffer; [fclose_ok]: [fclose] flushed it to the file.  The code
    does not look at what [fclose] returns: when it fails the function
    still returns true, with no whole file on disk. *)
Definition WriteConfigFile (camera : PxLCamera)
  (fopen_ok fwrite_ok fclose_ok : bool) : Written :=
  (* Step 1 *)
  let sizes := fold_left (count_feature camera) feature_ids
                 {| nSupported := 0; nExtraParams := 0; numGpios := 0 |} in
  (* Step 2 *)
  let bufsize := to_int32 (3 * 4 + nSupported sizes * 16
                           + nExtraParams sizes * 4) in
  (* Step 3 *)
  let header := [PXL_CONFIG_FILE_MAGIC_NUMBER; 0;
                 wrap32 (nSupported sizes)] in
  (* Step 4: from the highest feature to the lowest *)
  match write_features camera (numGpios sizes) (rev feature_ids) with
  | None => Crashed
  | Some records =>
      let buffer := header ++ flat_map cells records in
      (* Step 5: ASSERT (pbuf == pEnd) *)
      if negb (4 * Z.of_nat (length buffer) =? bufsize) then Crashed
      (* Step 6 *)
      else if negb fopen_ok then Returned false
      else if fwrite_ok
           then (if fclose_ok then Produced buffer else Returned true)
      else Returned false
  end.

(** *** ReadConfigFile *)

(** Step 4: [n] iterations of the loop, [pbuf] pointing at the cells
    [buf].  [None]: the function reads outside the buffer. *)
Fixpoint read_features (camera : PxLCamera) (n : nat) (buf : list Z)
  : option (list SetFeature) :=
  match n with
  | O => Some []
  | S n' =>
      match buf with
      | id :: fl :: np :: from_param1 =>
          let cameraNParams := numParametersSupported camera id in
          let count := if np <? cameraNParams then np else cameraNParams in
          let calls :=
            if negb (id =? wrap32 FEATURE_MEMORY_CHANNEL)
               && manualSupported camera id
            then
              if count <=? Z.of_nat (length from_param1)
              then Some [ {| set_featureId := id; set_flags := fl;
                             set_nParams := count;
                             set_params :=
                               firstn (Z.to_nat count) from_param1 |} ]
              else None
            else Some [] in
          (* pbuf += sizeof (FeatureData) + (nParams - 1) * sizeof (float) *)
          let next := skipn (Z.to_nat (1 + wrap32 (np - 1))) from_param1 in
          match calls, read_features camera n' next with
          | Some here, Some after => Some (here ++ after)
          | _, _ => None
          end
      | _ => None
      end
  end.

(** [file]: the content of the file, [None] when [fopen] fails;
    [fread_ok]: [fread] read the whole file.  The result is the value
    returned and the calls of [PxLSetFeature] made, in order. *)
Definition ReadConfigFile (camera : PxLCamera) (file : option (list Z))
    (fread_ok : bool) : option (bool * list SetFeature) :=
  match file with
  | None => Some (false, [])
  | Some [] => Some (false, [])                       (* fileSize <= 0 *)
  | Some (magic :: after_magic) =>
      if negb fread_ok then Some (false, [])
      else if negb (to_int32 magic =? PXL_CONFIG_FILE_MAGIC_NUMBER)
      then Some (false, [])
      else
        match after_magic with
        | descriptors :: nFeatures :: buf =>
            if negb (to_int32 descriptors =? 0) then Some (false, [])
            else
              match read_features camera
                      (Z.to_nat (to_int32 nFeatures)) buf with
              | Some calls => Some (true, calls)
              | None => None
              end
        | [descriptors] =>
            if negb (to_int32 descriptors =? 0) then Some (false, [])
            else None
        | [] => None
        end
  end.

(** *** The configuration recorded, in the words of the round-trip contract *)

(** A feature is persisted when it is supported and is not the memory
    channel. *)
Definition kept (camera : PxLCamera) (id : Z) : bool :=
  supported camera id && negb (id =? FEATURE_MEMORY_CHANNEL).

(** What the camera reports for one persisted feature: one record, or one
    record per GPIO for the GPIO feature. *)
Definition recorded_for (camera : PxLCamera) (id : Z) : list FeatureData :=
  if kept camera id
  then map (get_record camera id (numParametersSupported camera id))
           (if id =? FEATURE_GPIO
            then map float_of_int (gpio_numbers (snd (getGpioRange camera)))
            else [0])
  else [].

(** All persisted features, highest feature first. *)
Definition recorded (camera : PxLCamera) : list FeatureData :=
  flat_map (recorded_for camera) (rev feature_ids).

(** Setting a feature back to a record. *)
Definition restored (r : FeatureData) : SetFeature :=
  {| set_featureId := featureId r; set_flags := flags r;
     set_nParams := nParams r; set_params := params r |}.

Definition settable (camera : PxLCamera) (r : FeatureData) : bool :=
  manualSupported camera (featureId r).

(** What is assumed of the vendor's library and of the camera class:
    counts are small, every supported feature has at least one parameter,
    and [PxLGetFeature] reports the parameter count of the feature table. *)
Record sdk_contract (camera : PxLCamera) : Prop := {
  total_range : 0 <= FEATURES_TOTAL <= 256;
  memory_channel_range : 0 <= FEATURE_MEMORY_CHANNEL < 2 ^ 32;
  params_range :
    forall id, 0 <= id < FEATURES_TOTAL -> supported camera id = true ->
               1 <= numParametersSupported camera id <= 256;
  gpios_range : -256 <= snd (getGpioRange camera) <= 256;
  get_nParams :
    forall id ps, 0 <= id < FEATURES_TOTAL -> supported camera id = true ->
      snd (fst (PxLGetFeature (getHandle camera) id
                  (numParametersSupported camera id) ps))
      = numParametersSupported camera id
}.

(** A record the reader steps over correctly. *)
Definition well_formed (camera : PxLCamera) (r : FeatureData) : Prop :=
  featureId r <> FEATURE_MEMORY_CHANNEL /\
  nParams r = numParametersSupported camera (featureId r) /\
  1 <= nParams r <= 256 /\
  length (params r) = Z.to_nat (nParams r).

(** Step 1 seen from the last feature processed. *)
Definition sizes_of (camera : PxLCamera) (ids : list Z) : Sizes :=
  fold_right (fun id a => count_feature camera a id)
    {| nSupported := 0; nExtraParams := 0; numGpios := 0 |} ids.

(** *** Lemmas *)

Lemma overlay_length new old : length (overlay new old) = length old.
Proof.
  unfold overlay. rewrite length_app, length_firstn, length_skipn. lia.
Qed.

Lemma get_record_featureId camera id pcount p :
  featureId (get_record camera id pcount p) = wrap32 id.
Proof.
  unfold get_record. destruct (PxLGetFeature _ _ _ _) as [[fl n] ps].
  reflexivity.
Qed.

Lemma get_record_nParams camera id pcount p :
  exists ps,
    nParams (get_record camera id pcount p)
    = snd (fst (PxLGetFeature (getHandle camera) id pcount ps)).
Proof.
  exists (overlay [p] (repeat 0 (Z.to_nat pcount))). unfold get_record.
  destruct (PxLGetFeature _ _ _ _) as [[fl n] ps]. reflexivity.
Qed.

Lemma get_record_params_length camera id pcount p :
  length (params (get_record camera id pcount p)) = Z.to_nat pcount.
Proof.
  unfold get_record. destruct (PxLGetFeature _ _ _ _) as [[fl n] ps].
  simpl. rewrite !overlay_length. apply repeat_length.
Qed.

Lemma cells_length r :
  length (cells r) = (3 + length (params r))%nat.
Proof. reflexivity. Qed.

Lemma feature_ids_range id :
  In id feature_ids -> 0 <= id < FEATURES_TOTAL.
Proof.
  unfold feature_ids. rewrite in_map_iff. intros (n & <- & Hn).
  apply in_seq in Hn. lia.
Qed.

Lemma feature_ids_length :
  0 <= FEATURES_TOTAL -> Z.of_nat (length feature_ids) = FEATURES_TOTAL.
Proof.
  intros H. unfold feature_ids. rewrite length_map, length_seq. lia.
Qed.

Lemma recorded_for_well_formed camera id :
  sdk_contract camera -> 0 <= id < FEATURES_TOTAL ->
  Forall (well_formed camera) (recorded_for camera id).
Proof.
  intros C Hid. unfold recorded_for, kept.
  destruct (supported camera id) eqn:Hsup; simpl; [| constructor].
  destruct (Z.eqb_spec id FEATURE_MEMORY_CHANNEL) as [| Hmem]; simpl;
    [constructor |].
  pose proof (total_range _ C) as Htot.
  pose proof (params_range _ C id Hid Hsup) as Hpc.
  assert (Hwrap : wrap32 id = id) by (apply wrap32_small; lia).
  apply Forall_forall. intros r Hr. apply in_map_iff in Hr.
  destruct Hr as (p & <- & _).
  destruct (get_record_nParams camera id (numParametersSupported camera id) p)
    as [ps Hn].
  rewrite (get_nParams _ C id ps Hid Hsup) in Hn.
  unfold well_formed.
  rewrite get_record_featureId, Hwrap, Hn, get_record_params_length.
  repeat split; auto; lia.
Qed.

Lemma recorded_well_formed camera ids :
  sdk_contract camera ->
  Forall (fun id => 0 <= id < FEATURES_TOTAL) ids ->
  Forall (well_formed camera) (flat_map (recorded_for camera) ids).
Proof.
  intros C Hids. induction Hids as [| id ids Hid _ IH]; simpl.
  - constructor.
  - apply Forall_app. split; [apply recorded_for_well_formed |]; assumption.
Qed.

(** The reader, run over well-formed records, sets every settable one. *)
Lemma read_features_records camera recs rest :
  0 <= FEATURE_MEMORY_CHANNEL < 2 ^ 32 ->
  Forall (well_formed camera) recs ->
  read_features camera (length recs) (flat_map cells recs ++ rest)
  = Some (map restored (filter (settable camera) recs)).
Proof.
  intros Hmem Hwf. induction Hwf as [| r recs Hr _ IH]; [reflexivity |].
  destruct Hr as (Hid & Hnp & Hrange & Hlen).
  simpl length. cbn [flat_map]. unfold cells at 1.
  rewrite <- !app_assoc. cbn [app read_features].
  rewrite <- Hnp, Z.ltb_irrefl.
  rewrite (wrap32_small FEATURE_MEMORY_CHANNEL) by assumption.
  destruct (Z.eqb_spec (featureId r) FEATURE_MEMORY_CHANNEL) as [| _];
    [contradiction |].
  replace (1 + wrap32 (nParams r - 1)) with (nParams r)
    by (rewrite wrap32_small; lia).
  rewrite <- Hlen, drop_app_length, IH. cbn [negb andb].
  unfold settable at 2. cbn [filter].
  destruct (manualSupported camera (featureId r)); [| reflexivity].
  replace (nParams r <=? Z.of_nat (length (params r ++ flat_map cells recs ++ rest)))
    with true
    by (symmetry; apply Z.leb_le; rewrite length_app; lia).
  rewrite take_app_length. reflexivity.
Qed.

(** Step 4 does not depend on [numGpios] where the GPIO feature is not
    persisted. *)
Lemma write_features_gpios camera g g' ids :
  Forall (fun id => kept camera id && (id =? FEATURE_GPIO) = false) ids ->
  write_features camera g ids = write_features camera g' ids.
Proof.
  intros H. induction H as [| id ids Hid _ IH]; [reflexivity |].
  simpl. rewrite IH.
  replace (feature_records camera g id) with (feature_records camera g' id);
    [reflexivity |].
  unfold feature_records, kept in *.
  destruct (supported camera id); simpl in *; [| reflexivity].
  destruct (id =? FEATURE_MEMORY_CHANNEL); simpl in *; [reflexivity |].
  rewrite Hid. reflexivity.
Qed.

Lemma feature_records_recorded camera id :
  sdk_contract camera -> 0 <= id < FEATURES_TOTAL ->
  feature_records camera (snd (getGpioRange camera)) id
  = Some (recorded_for camera id).
Proof.
  intros C Hid. unfold feature_records, recorded_for, kept.
  destruct (supported camera id) eqn:Hsup; simpl; [| reflexivity].
  destruct (id =? FEATURE_MEMORY_CHANNEL); simpl; [reflexivity |].
  pose proof (params_range _ C id Hid Hsup) as Hpc.
  replace (1 <=? numParametersSupported camera id) with true
    by (symmetry; apply Z.leb_le; lia).
  destruct (if id =? FEATURE_GPIO then _ else _); reflexivity.
Qed.

Lemma records_cells_length camera id pcount (l : list Z) :
  length (flat_map cells (map (get_record camera id pcount) l))
  = (length l * (3 + Z.to_nat pcount))%nat.
Proof.
  induction l as [| p l IH]; [reflexivity |].
  simpl map. cbn [flat_map]. rewrite length_app, IH, cells_length.
  rewrite get_record_params_length. simpl. lia.
Qed.

(** Steps 1 and 4 side by side, over the same features: the counters of
    Step 1 are exact, and they differ from what Step 4 writes by [k]
    records of the GPIO feature. *)
Lemma sizes_records camera ids :
  sdk_contract camera ->
  Forall (fun id => 0 <= id < FEATURES_TOTAL) ids ->
  Z.of_nat (length ids) <= 256 ->
  let sz := sizes_of camera ids in
  let recs := flat_map (recorded_for camera) ids in
  let len := Z.of_nat (length ids) in
  write_features camera (snd (getGpioRange camera)) ids = Some recs /\
  (numGpios sz = snd (getGpioRange camera) \/
   Forall (fun id => kept camera id && (id =? FEATURE_GPIO) = false) ids) /\
  - 256 * len <= nSupported sz <= 256 * len /\
  - 65536 * len <= nExtraParams sz <= 65536 * len /\
  exists k,
    nSupported sz = Z.of_nat (length recs) + k /\
    4 * nSupported sz + nExtraParams sz
    = Z.of_nat (length (flat_map cells recs))
      + k * (3 + numParametersSupported camera FEATURE_GPIO) /\
    (k <> 0 -> 1 <= numParametersSupported camera FEATURE_GPIO).
Proof.
  intros C Hids. induction Hids as [| id ids Hid Hids IH]; intros Hlen.
  - cbv zeta. simpl. repeat split; try lia; auto.
    exists 0. repeat split; lia.
  - simpl length in Hlen. rewrite Nat2Z.inj_succ in Hlen.
    destruct (IH ltac:(lia)) as (Hw & Hg & HnS & HnE & k & Hk1 & Hk2 & Hk3).
    clear IH. cbv zeta in *.
    assert (Hwrite : write_features camera (snd (getGpioRange camera))
                       (id :: ids)
                     = Some (flat_map (recorded_for camera) (id :: ids))).
    { simpl. rewrite (feature_records_recorded _ _ C Hid), Hw. reflexivity. }
    split; [exact Hwrite |]. clear Hwrite Hw.
    simpl length. rewrite Nat2Z.inj_succ.
    set (len := Z.of_nat (length ids)) in *.
    change (sizes_of camera (id :: ids))
      with (count_feature camera (sizes_of camera ids) id).
    set (a := sizes_of camera ids) in *.
    assert (Hlen0 : 0 <= len) by apply Nat2Z.is_nonneg.
    cbn [flat_map].
    set (tail := flat_map (recorded_for camera) ids) in *.
    unfold count_feature, recorded_for, kept.
    destruct (supported camera id) eqn:Hsup; cbn [negb andb].
    2:{ (* not supported *)
      simpl. split.
      - destruct Hg as [Hg | Hg]; [left; exact Hg |].
        right. constructor; [| exact Hg]. unfold kept. rewrite Hsup.
        reflexivity.
      - split; [lia |]. split; [lia |]. exists k. auto. }
    destruct (Z.eqb_spec id FEATURE_MEMORY_CHANNEL) as [Hmem | Hmem];
      cbn [negb].
    { (* the memory channel *)
      simpl. split.
      - destruct Hg as [Hg | Hg]; [left; exact Hg |].
        right. constructor; [| exact Hg]. unfold kept. rewrite Hsup.
        subst id. rewrite Z.eqb_refl. reflexivity.
      - split; [lia |]. split; [lia |]. exists k. auto. }
    pose proof (params_range _ C id Hid Hsup) as Hpc.
    pose proof (gpios_range _ C) as Hgp.
    set (pc := numParametersSupported camera id) in *.
    assert (Hpc1 : wrap32 (pc - 1) = pc - 1) by (apply wrap32_small; lia).
    rewrite Hpc1.
    destruct (Z.eqb_spec id FEATURE_GPIO) as [Hgpio | Hgpio].
    + (* the GPIO feature *)
      subst id. fold pc in Hk2, Hk3 |- *.
      destruct (getGpioRange camera) as [ok ng]. simpl snd in *.
      set (num := if ok then ng else 1).
      assert (Hnum : -256 <= num <= 256) by (subst num; destruct ok; lia).
      cbn [nSupported nExtraParams numGpios].
      assert (Hprod : -65536 <= num * (pc - 1) <= 65536) by nia.
      rewrite !to_int32_id by (unfold INT_MIN, INT_MAX; lia).
      split; [left; reflexivity |].
      split; [lia |]. split; [lia |].
      exists (k + num - Z.of_nat (Z.to_nat ng)).
      rewrite !flat_map_app, !length_app, records_cells_length.
      rewrite !length_map. unfold gpio_numbers.
      rewrite !length_map, length_seq.
      rewrite !Nat2Z.inj_add, Nat2Z.inj_mul, Nat2Z.inj_add.
      rewrite (Z2Nat.id pc) by lia. change (Z.of_nat 3) with 3.
      repeat split; [lia | | intros _; lia].
      replace (4 * (nSupported a + num) + (nExtraParams a + num * (pc - 1)))
        with ((4 * nSupported a + nExtraParams a) + num * (3 + pc)) by ring.
      rewrite Hk2. ring.
    + (* any other feature *)
      cbn [nSupported nExtraParams numGpios].
      rewrite !to_int32_id by (unfold INT_MIN, INT_MAX; lia).
      split.
      * destruct Hg as [Hg | Hg]; [left; exact Hg |].
        right. constructor; [| exact Hg].
        destruct (Z.eqb_spec id FEATURE_GPIO); [contradiction |].
        apply andb_false_r.
      * split; [lia |]. split; [lia |].
        exists k.
        rewrite !flat_map_app, !length_app, records_cells_length.
        simpl length. rewrite !Nat2Z.inj_add, Nat2Z.inj_mul, Nat2Z.inj_add.
        rewrite (Z2Nat.id pc) by lia. change (Z.of_nat 3) with 3.
        change (Z.of_nat 1) with 1.
        repeat split; [lia | lia | exact Hk3].
Qed.

Lemma sizes_of_fold camera :
  fold_left (count_feature camera) feature_ids
    {| nSupported := 0; nExtraParams := 0; numGpios := 0 |}
  = sizes_of camera (rev feature_ids).
Proof.
  unfold sizes_of. symmetry.
  apply (fold_left_rev_right (fun id a => count_feature camera a id)).
Qed.

Lemma magic_is_int :
  to_int32 PXL_CONFIG_FILE_MAGIC_NUMBER = PXL_CONFIG_FILE_MAGIC_NUMBER.
Proof. reflexivity. Qed.

(** The round trip, for the runs that leave a whole file: when
    [WriteConfigFile] produces a file for a camera (whose library
    honours [sdk_contract]), the file is the header followed by the records
    of all supported features but the memory channel, as [PxLGetFeature]
    reported them; [ReadConfigFile] on that file returns true after calling
    [PxLSetFeature] exactly once for each recorded feature that is manually
    settable, in file order, with the recorded flags, parameter count and
    parameter values; and the memory channel is neither in the file nor
    among the calls. *)
Theorem config_roundtrip camera fopen_ok fwrite_ok fclose_ok file :
  sdk_contract camera ->
  WriteConfigFile camera fopen_ok fwrite_ok fclose_ok = Produced file ->
  file = [PXL_CONFIG_FILE_MAGIC_NUMBER; 0;
          Z.of_nat (length (recorded camera))]
         ++ flat_map cells (recorded camera) /\
  Forall (fun r => featureId r <> FEATURE_MEMORY_CHANNEL) (recorded camera) /\
  ReadConfigFile camera (Some file) true
  = Some (true, map restored (filter (settable camera) (recorded camera))) /\
  Forall (fun c => set_featureId c <> FEATURE_MEMORY_CHANNEL)
         (map restored (filter (settable camera) (recorded camera))).
Proof.
  intros C Hwrite.
  pose proof (total_range _ C) as Htot.
  assert (Hrange : Forall (fun id => 0 <= id < FEATURES_TOTAL)
                          (rev feature_ids)).
  { apply Forall_forall. intros id Hin. apply feature_ids_range.
    apply in_rev. exact Hin. }
  assert (Hlen : Z.of_nat (length (rev feature_ids)) <= 256).
  { rewrite length_rev, feature_ids_length; lia. }
  pose proof (recorded_well_formed camera _ C Hrange) as Hwf.
  fold (recorded camera) in Hwf.
  destruct (sizes_records camera _ C Hrange Hlen)
    as (Hw & Hg & HnS & HnE & k & Hk1 & Hk2 & Hk3).
  fold (recorded camera) in Hw, Hk1, Hk2.
  (* the writer *)
  unfold WriteConfigFile in Hwrite. rewrite sizes_of_fold in Hwrite.
  set (sz := sizes_of camera (rev feature_ids)) in *.
  assert (Hw' : write_features camera (numGpios sz) (rev feature_ids)
                = Some (recorded camera)).
  { destruct Hg as [-> | Hg]; [exact Hw |].
    rewrite <- Hw. apply write_features_gpios. exact Hg. }
  rewrite Hw' in Hwrite.
  destruct (Z.eqb_spec
              (4 * Z.of_nat (length ([PXL_CONFIG_FILE_MAGIC_NUMBER; 0;
                                      wrap32 (nSupported sz)]
                                     ++ flat_map cells (recorded camera))))
              (to_int32 (3 * 4 + nSupported sz * 16 + nExtraParams sz * 4)))
    as [Hassert | _]; [| discriminate Hwrite].
  cbn [negb] in Hwrite.
  destruct fopen_ok; [| discriminate Hwrite].
  destruct fwrite_ok; [| discriminate Hwrite].
  destruct fclose_ok; [| discriminate Hwrite].
  cbn [negb] in Hwrite. injection Hwrite as <-.
  rewrite to_int32_id in Hassert by (unfold INT_MIN, INT_MAX; lia).
  rewrite length_app in Hassert. simpl length in Hassert.
  assert (Hk0 : k = 0).
  { assert (Hz : k * (3 + numParametersSupported camera FEATURE_GPIO) = 0)
      by lia.
    destruct (Z.eq_dec k 0) as [| Hne]; [assumption |].
    specialize (Hk3 Hne). nia. }
  subst k. rewrite Z.add_0_r in Hk1.
  assert (Hcount : wrap32 (nSupported sz)
                   = Z.of_nat (length (recorded camera))).
  { rewrite Hk1. apply wrap32_small. lia. }
  rewrite Hcount.
  assert (Hmem : Forall (fun r => featureId r <> FEATURE_MEMORY_CHANNEL)
                        (recorded camera)).
  { eapply Forall_impl; [| exact Hwf]. intros r (H & _). exact H. }
  split; [reflexivity |].
  split; [exact Hmem |].
  split.
  - (* the reader *)
    unfold ReadConfigFile. cbn [app negb].
    rewrite magic_is_int, Z.eqb_refl. cbn [negb].
    change (to_int32 0) with 0. rewrite Z.eqb_refl. cbn [negb].
    rewrite to_int32_id by (unfold INT_MIN, INT_MAX; lia).
    rewrite Nat2Z.id.
    rewrite <- (app_nil_r (flat_map cells (recorded camera))).
    rewrite read_features_records;
      [reflexivity | apply (memory_channel_range _ C) | exact Hwf].
  - apply Forall_forall. intros c Hc. apply in_map_iff in Hc.
    destruct Hc as (r & <- & Hr). apply filter_In in Hr.
    destruct Hr as [Hr _]. rewrite Forall_forall in Hmem.
    exact (Hmem r Hr).
Qed.

(** *** The reader on arbitrary files *)

(** A call of [PxLSetFeature] that the camera can take: the feature is
    not the memory channel, it can be set manually, no more parameters are
    announced than the feature has, and all of them lie in the buffer. *)
Definition safe_call (camera : PxLCamera) (c : SetFeature) : Prop :=
  set_featureId c <> wrap32 FEATURE_MEMORY_CHANNEL /\
  manualSupported camera (set_featureId c) = true /\
  set_nParams c <= numParametersSupported camera (set_featureId c) /\
  length (set_params c) = Z.to_nat (set_nParams c).

Lemma read_features_safe camera n :
  forall buf calls,
    read_features camera n buf = Some calls ->
    Forall (safe_call camera) calls.
Proof.
  induction n as [| n IH]; intros buf calls Hread; simpl in Hread.
  - injection Hread as <-. constructor.
  - destruct buf as [| id [| fl [| np from_param1]]]; try discriminate Hread.
    set (cN := numParametersSupported camera id) in *.
    set (count := if np <? cN then np else cN) in *.
    destruct (read_features camera n _) as [after |] eqn:Hafter;
      [| destruct (_ && _); [destruct (_ <=? _) |]; discriminate Hread].
    apply IH in Hafter.
    destruct (negb (id =? wrap32 FEATURE_MEMORY_CHANNEL)) eqn:Hmem;
      cbn [andb] in Hread;
      [destruct (manualSupported camera id) eqn:Hman |];
      [destruct (count <=? Z.of_nat (length from_param1)) eqn:Hfit;
       [| discriminate Hread] | |];
      injection Hread as <-; simpl; try exact Hafter.
    constructor; [| exact Hafter].
    apply negb_true_iff, Z.eqb_neq in Hmem. apply Z.leb_le in Hfit.
    unfold safe_call. simpl.
    split; [exact Hmem |]. split; [exact Hman |]. split.
    + subst count. fold cN. destruct (Z.ltb_spec np cN); lia.
    + rewrite length_take. lia.
Qed.

(** X10: whatever the file holds, [ReadConfigFile] (when it stays inside its
    buffer) only makes calls of [PxLSetFeature] for features that can be
    set manually and are not the memory channel, never announces more
    parameters than the camera has for the feature, and passes parameters
    that lie in the buffer; when it returns false it has made no call. *)
Theorem read_calls_safe camera file fread_ok ok calls :
  ReadConfigFile camera file fread_ok = Some (ok, calls) ->
  (ok = false -> calls = []) /\ Forall (safe_call camera) calls.
Proof.
  unfold ReadConfigFile. intros Hread.
  destruct file as [[| magic after_magic] |];
    try (injection Hread as <- <-; split; [reflexivity | constructor]).
  destruct (negb fread_ok);
    [injection Hread as <- <-; split; [reflexivity | constructor] |].
  destruct (negb (to_int32 magic =? _));
    [injection Hread as <- <-; split; [reflexivity | constructor] |].
  destruct after_magic as [| descriptors [| nFeatures buf]];
    [discriminate Hread | |];
    (destruct (negb (to_int32 descriptors =? 0));
     [injection Hread as <- <-; split; [reflexivity | constructor] |]);
    [discriminate Hread |].
  destruct (read_features camera _ buf) as [cs |] eqn:Hcs;
    [| discriminate Hread].
  injection Hread as <- <-. split; [discriminate |].
  eapply read_features_safe. exact Hcs.
Qed.

Lemma read_features_short camera n :
  forall buf,
    (length buf + 1 < 4 * n)%nat -> read_features camera n buf = None.
Proof.
  induction n as [| n IH]; intros buf Hlen; [lia |].
  simpl. destruct buf as [| id [| fl [| np from_param1]]]; try reflexivity.
  simpl in Hlen.
  rewrite IH; [destruct (_ && _); [destruct (_ <=? _) |]; reflexivity |].
  rewrite length_drop.
  pose proof (wrap32_range (np - 1)) as Hw.
  assert (Hk : (1 <= Z.to_nat (1 + wrap32 (np - 1)))%nat) by lia.
  lia.
Qed.

(** X11: the feature count of the file is trusted.  If the file announces
    [n] features and holds fewer than 4 n - 1 cells after its header
    (every record takes at least four cells, the last one is read up to
    its third), the reader reads outside its buffer. *)
Theorem read_trusts_count camera nFeatures buf :
  (length buf + 1 < 4 * Z.to_nat (to_int32 nFeatures))%nat ->
  ReadConfigFile camera
    (Some (PXL_CONFIG_FILE_MAGIC_NUMBER :: 0 :: nFeatures :: buf)) true
  = None.
Proof.
  intros Hlen. unfold ReadConfigFile. cbn [negb].
  rewrite magic_is_int, Z.eqb_refl. cbn [negb].
  change (to_int32 0) with 0. rewrite Z.eqb_refl. cbn [negb].
  rewrite read_features_short by exact Hlen. reflexivity.
Qed.

(** *** The sanity check of the writer *)

(** What Step 1 counts for the GPIO feature beyond what Step 4 writes for
    it: Step 1 counts [numGpios] records when [getGpioRange] succeeds and
    one record when it fails; Step 4 writes one record for each GPIO
    number from 1 to [numGpios]. *)
Definition gpio_gap (camera : PxLCamera) : Z :=
  (if fst (getGpioRange camera) then snd (getGpioRange camera) else 1)
  - Z.max 0 (snd (getGpioRange camera)).

Definition gpio_kept (camera : PxLCamera) (id : Z) : bool :=
  kept camera id && (id =? FEATURE_GPIO).

Lemma in_feature_ids id : 0 <= id < FEATURES_TOTAL -> In id feature_ids.
Proof.
  intros Hid. unfold feature_ids. apply in_map_iff.
  exists (Z.to_nat id). split; [lia | apply in_seq; lia].
Qed.

Lemma sizes_gap camera ids :
  sdk_contract camera ->
  Forall (fun id => 0 <= id < FEATURES_TOTAL) ids ->
  Z.of_nat (length ids) <= 256 ->
  nSupported (sizes_of camera ids)
  = Z.of_nat (length (flat_map (recorded_for camera) ids))
    + gpio_gap camera * Z.of_nat (length (filter (gpio_kept camera) ids)).
Proof.
  intros C Hids. induction Hids as [| id ids Hid Hids IH]; intros Hlen.
  - simpl. lia.
  - simpl length in Hlen. rewrite Nat2Z.inj_succ in Hlen.
    specialize (IH ltac:(lia)).
    destruct (sizes_records camera ids C Hids ltac:(lia))
      as (_ & _ & HnS & _).
    cbv zeta in HnS.
    change (sizes_of camera (id :: ids))
      with (count_feature camera (sizes_of camera ids) id).
    set (a := sizes_of camera ids) in *.
    cbn [flat_map]. rewrite length_app, Nat2Z.inj_add.
    change (filter (gpio_kept camera) (id :: ids))
      with (if gpio_kept camera id
            then id :: filter (gpio_kept camera) ids
            else filter (gpio_kept camera) ids).
    set (recs := length (flat_map (recorded_for camera) ids)) in *.
    set (others := filter (gpio_kept camera) ids) in *.
    clearbody recs others.
    unfold count_feature, recorded_for, gpio_kept, kept.
    destruct (supported camera id) eqn:Hsup; cbn [negb andb];
      [| simpl; exact IH].
    destruct (Z.eqb_spec id FEATURE_MEMORY_CHANNEL) as [Hmem | Hmem];
      cbn [negb andb]; [simpl; exact IH |].
    pose proof (gpios_range _ C) as Hgp.
    unfold gpio_gap in *.
    destruct (Z.eqb_spec id FEATURE_GPIO) as [Hgpio | Hgpio].
    + destruct (getGpioRange camera) as [ok ng]. simpl fst in *.
      simpl snd in *. cbn [nSupported].
      rewrite to_int32_id by (unfold INT_MIN, INT_MAX; destruct ok; lia).
      rewrite !length_map. unfold gpio_numbers.
      rewrite !length_map, length_seq. simpl length.
      rewrite Nat2Z.inj_succ, Z.mul_succ_r.
      set (p := _ * Z.of_nat (length others)) in *. destruct ok; lia.
    + cbn [nSupported].
      rewrite to_int32_id by (unfold INT_MIN, INT_MAX; lia).
      simpl length. set (p := _ * Z.of_nat (length others)) in *. lia.
Qed.

(** X12: the sanity check of Step 5 fails exactly when the GPIO feature is
    persisted and Step 1 did not count as many GPIO records as Step 4
    writes: [getGpioRange] failed and left a count other than 1, or it
    reported a negative count.  For every other camera the writer gets to
    Step 6. *)
Theorem write_sanity_check camera fopen_ok fwrite_ok fclose_ok :
  sdk_contract camera ->
  (WriteConfigFile camera fopen_ok fwrite_ok fclose_ok = Crashed <->
   supported camera FEATURE_GPIO = true /\
   FEATURE_GPIO <> FEATURE_MEMORY_CHANNEL /\
   0 <= FEATURE_GPIO < FEATURES_TOTAL /\
   gpio_gap camera <> 0).
Proof.
  intros C.
  pose proof (total_range _ C) as Htot.
  assert (Hrange : Forall (fun id => 0 <= id < FEATURES_TOTAL)
                          (rev feature_ids)).
  { apply Forall_forall. intros id Hin. apply feature_ids_range.
    apply in_rev. exact Hin. }
  assert (Hlen : Z.of_nat (length (rev feature_ids)) <= 256).
  { rewrite length_rev, feature_ids_length; lia. }
  destruct (sizes_records camera _ C Hrange Hlen)
    as (Hw & Hg & HnS & HnE & k & Hk1 & Hk2 & Hk3).
  pose proof (sizes_gap camera _ C Hrange Hlen) as Hgap.
  fold (recorded camera) in Hw, Hk1, Hk2, Hgap.
  set (count := Z.of_nat (length (filter (gpio_kept camera)
                                         (rev feature_ids)))) in *.
  assert (Hcount :
    count <> 0 <->
    supported camera FEATURE_GPIO = true /\
    FEATURE_GPIO <> FEATURE_MEMORY_CHANNEL /\
    0 <= FEATURE_GPIO < FEATURES_TOTAL).
  { subst count. split.
    - intros Hne.
      destruct (filter (gpio_kept camera) (rev feature_ids))
        as [| id rest] eqn:Hf; [contradiction Hne; reflexivity |].
      assert (Hin : In id (filter (gpio_kept camera) (rev feature_ids)))
        by (rewrite Hf; left; reflexivity).
      apply filter_In in Hin. destruct Hin as [Hin Hkept].
      unfold gpio_kept, kept in Hkept.
      apply andb_prop in Hkept. destruct Hkept as [Hkept Heq].
      apply andb_prop in Hkept. destruct Hkept as [Hsup Hmem].
      apply Z.eqb_eq in Heq. subst id.
      apply negb_true_iff, Z.eqb_neq in Hmem.
      rewrite Forall_forall in Hrange. auto.
    - intros (Hsup & Hmem & Hin) Hzero.
      assert (Hgpio : In FEATURE_GPIO
                         (filter (gpio_kept camera) (rev feature_ids))).
      { apply filter_In. split.
        - apply in_rev. rewrite rev_involutive. apply in_feature_ids.
          exact Hin.
        - unfold gpio_kept, kept. rewrite Hsup, Z.eqb_refl.
          apply Z.eqb_neq in Hmem. rewrite Hmem. reflexivity. }
      destruct (filter (gpio_kept camera) (rev feature_ids));
        [destruct Hgpio | discriminate Hzero]. }
  unfold WriteConfigFile. rewrite sizes_of_fold.
  set (sz := sizes_of camera (rev feature_ids)) in *.
  assert (Hw' : write_features camera (numGpios sz) (rev feature_ids)
                = Some (recorded camera)).
  { destruct Hg as [-> | Hg]; [exact Hw |].
    rewrite <- Hw. apply write_features_gpios. exact Hg. }
  rewrite Hw'.
  rewrite to_int32_id by (unfold INT_MIN, INT_MAX; lia).
  rewrite length_app. simpl length.
  assert (Hk : k = gpio_gap camera * count) by lia.
  destruct (Z.eqb_spec
              (4 * Z.of_nat (3 + length (flat_map cells (recorded camera))))
              (3 * 4 + nSupported sz * 16 + nExtraParams sz * 4))
    as [Hassert | Hassert]; cbn [negb].
  - (* the check passes *)
    assert (Hk0 : k = 0).
    { assert (Hz : k * (3 + numParametersSupported camera FEATURE_GPIO) = 0)
        by lia.
      destruct (Z.eq_dec k 0) as [| Hne]; [assumption |].
      specialize (Hk3 Hne). nia. }
    split.
    + destruct fopen_ok; [destruct fwrite_ok; [destruct fclose_ok |] |];
        discriminate.
    + intros (Hsup & Hmem & Hin & Hne). exfalso.
      assert (Hc : count <> 0) by (apply Hcount; auto).
      nia.
  - (* the check fails *)
    split; [| reflexivity]. intros _.
    assert (Hk0 : k <> 0) by (intros ->; lia).
    assert (Hc : count <> 0) by (intros Hz; rewrite Hz in Hk; lia).
    apply Hcount in Hc. destruct Hc as (Hsup & Hmem & Hin).
    repeat split; try assumption; lia.
Qed.

End Camera.

(** *** A small camera *)

(** Five feature numbers: 0 has one parameter and is settable, 1 is the
    memory channel, 2 is the GPIO feature with three parameters and two
    GPIOs, 3 has one parameter and is read-only, 4 is not supported. *)
Definition demo_get (h : unit) (id n : Z) (ps : list Z) : Z * Z * list Z :=
  (id + 16, n, map (fun p => p + 100 * id + 7) ps).

Definition demo_camera (gpio_range : bool * Z) : PxLCamera unit :=
  {| getHandle := tt;
     supported := fun id => id <? 4;
     manualSupported := fun id => negb (id =? 3);
     numParametersSupported := fun id => if id =? 2 then 3 else 1;
     getGpioRange := gpio_range |}.

Definition demo_file : list Z :=
  [PXL_CONFIG_FILE_MAGIC_NUMBER; 0; 4;
   3; 19; 1; 307;
   2; 18; 3; 1208; 207; 207;
   2; 18; 3; 1209; 207; 207;
   0; 16; 1; 7].

Example demo_write :
  WriteConfigFile 5 2 1 (fun n => 1000 + n) unit demo_get
    (demo_camera (true, 2)) true true true
  = Produced demo_file.
Proof. vm_compute. reflexivity. Qed.

Example demo_read :
  ReadConfigFile 1 unit (demo_camera (true, 2)) (Some demo_file) true
  = Some (true,
          [ {| set_featureId := 2; set_flags := 18; set_nParams := 3;
               set_params := [1208; 207; 207] |};
            {| set_featureId := 2; set_flags := 18; set_nParams := 3;
               set_params := [1209; 207; 207] |};
            {| set_featureId := 0; set_flags := 16; set_nParams := 1;
               set_params := [7] |} ]).
Proof. vm_compute. reflexivity. Qed.

(** When [getGpioRange] fails, Step 1 counts one GPIO record and Step 4
    writes [numGpios] of them: the ASSERT of Step 5 fails. *)
Example demo_gpio_range_fails :
  WriteConfigFile 5 2 1 (fun n => 1000 + n) unit demo_get
    (demo_camera (false, 0)) true true true
  = Crashed.
Proof. vm_compute. reflexivity. Qed.

Lemma demo_contract :
  sdk_contract 5 1 unit demo_get (demo_camera (true, 2)).
Proof.
  constructor.
  - lia.
  - lia.
  - intros id _ _. simpl. destruct (id =? 2); lia.
  - simpl. lia.
  - intros id ps _ _. reflexivity.
Qed.

Lemma config_roundtrip_witness :
  let camera := demo_camera (true, 2) in
  let records := recorded 5 2 1 (fun n => 1000 + n) unit demo_get camera in
  demo_file = [PXL_CONFIG_FILE_MAGIC_NUMBER; 0; Z.of_nat (length records)]
              ++ flat_map cells records /\
  Forall (fun r => featureId r <> 1) records /\
  ReadConfigFile 1 unit camera (Some demo_file) true
  = Some (true, map restored (filter (settable unit camera) records)) /\
  Forall (fun c => set_featureId c <> 1)
         (map restored (filter (settable unit camera) records)).
Proof.
  apply (config_roundtrip 5 2 1 (fun n => 1000 + n) unit demo_get
           (demo_camera (true, 2)) true true true demo_file).
  - exact demo_contract.
  - vm_compute. reflexivity.
Defined.

(** A file that announces two features and holds one. *)
Definition demo_truncated : list Z := [3; 19; 1; 307].

Lemma demo_contract_failing :
  sdk_contract 5 1 unit demo_get (demo_camera (false, 0)).
Proof.
  constructor.
  - lia.
  - lia.
  - intros id _ _. simpl. destruct (id =? 2); lia.
  - simpl. lia.
  - intros id ps _ _. reflexivity.
Qed.

(** C8: a camera that supports the GPIO feature and whose
    [getGpioRange] fails, leaving [numGpios] at the 0 it was initialised
    with, honours [sdk_contract]; Step 1 counts one GPIO record for it and
    Step 4 writes none, so [WriteConfigFile] stops at the ASSERT of Step 5
    whatever the file system does: no file is produced that
    [ReadConfigFile] could restore from.  And for the camera whose
    [getGpioRange] succeeds, a failing [fclose] after a complete [fwrite]
    makes the function return true without a whole file on disk. *)
Theorem write_aborts_when_gpio_range_fails :
  sdk_contract 5 1 unit demo_get (demo_camera (false, 0)) /\
  supported unit (demo_camera (false, 0)) 2 = true /\
  getGpioRange unit (demo_camera (false, 0)) = (false, 0) /\
  (forall fopen_ok fwrite_ok fclose_ok,
     WriteConfigFile 5 2 1 (fun n => 1000 + n) unit demo_get
       (demo_camera (false, 0)) fopen_ok fwrite_ok fclose_ok = Crashed) /\
  WriteConfigFile 5 2 1 (fun n => 1000 + n) unit demo_get
    (demo_camera (true, 2)) true true false = Returned true.
Proof.
  split; [exact demo_contract_failing |].
  split; [reflexivity |].
  split; [reflexivity |].
  split.
  - intros [] [] []; vm_compute; reflexivity.
  - vm_compute. reflexivity.
Qed.

Lemma read_calls_safe_witness :
  (true = false ->
   [ {| set_featureId := 2; set_flags := 18; set_nParams := 3;
        set_params := [1208; 207; 207] |};
     {| set_featureId := 2; set_flags := 18; set_nParams := 3;
        set_params := [1209; 207; 207] |};
     {| set_featureId := 0; set_flags := 16; set_nParams := 1;
        set_params := [7] |} ] = []) /\
  Forall (safe_call 1 unit (demo_camera (true, 2)))
    [ {| set_featureId := 2; set_flags := 18; set_nParams := 3;
         set_params := [1208; 207; 207] |};
      {| set_featureId := 2; set_flags := 18; set_nParams := 3;
         set_params := [1209; 207; 207] |};
      {| set_featureId := 0; set_flags := 16; set_nParams := 1;
         set_params := [7] |} ].
Proof.
  apply (read_calls_safe 1 unit (demo_camera (true, 2)) (Some demo_file) true).
  vm_compute. reflexivity.
Defined.

Lemma read_trusts_count_witness :
  ReadConfigFile 1 unit (demo_camera (true, 2))
    (Some (PXL_CONFIG_FILE_MAGIC_NUMBER :: 0 :: 2 :: demo_truncated)) true
  = None.
Proof.
  apply (read_trusts_count 1 unit (demo_camera (true, 2)) 2 demo_truncated).
  vm_compute. lia.
Defined.

Lemma write_sanity_check_witness :
  WriteConfigFile 5 2 1 (fun n => 1000 + n) unit demo_get
    (demo_camera (false, 0)) true true true = Crashed <->
  supported unit (demo_camera (false, 0)) 2 = true /\
  2 <> 1 /\ 0 <= 2 < 5 /\
  gpio_gap unit (demo_camera (false, 0)) <> 0.
Proof.
  apply (write_sanity_check 5 2 1 (fun n => 1000 + n) unit demo_get
           (demo_camera (false, 0)) true true true).
  exact demo_contract_failing.
Defined.

End ConfigFile.

(** ** captureOEM/src/helpers.cpp: file names *)

Module FileNames.
Import Ascii.

(** A [std::string], or a C string without its terminator. *)
Definition text : Type := list ascii.

Definition size (s : text) : Z := Z.of_nat (length s).

(** Position of the last character that satisfies [p]. *)
Fixpoint find_last (p : ascii -> bool) (s : text) : option nat :=
  match s with
  | [] => None
  | c :: s' =>
      match find_last p s' with
      | Some i => Some (S i)
      | None => if p c then Some O else None
      end
  end.

Definition is_in (chars : text) (c : ascii) : bool :=
  existsb (Ascii.eqb c) chars.

Definition decimal_digits : text :=
  ["0"; "1"; "2"; "3"; "4"; "5"; "6"; "7"; "8"; "9"]%char.

Definition is_digit (c : ascii) : bool := is_in decimal_digits c.

(** [isspace] in the C locale: space, and the characters 9 to 13. *)
Definition isspace (c : ascii) : bool :=
  is_in [" "; "009"; "010"; "011"; "012"; "013"]%char c.

Fixpoint skip_spaces (s : text) : text :=
  match s with
  | c :: s' => if isspace c then skip_spaces s' else s
  | [] => []
  end.

(** The value of the longest prefix of decimal digits. *)
Fixpoint digits_value (acc : Z) (s : text) : Z :=
  match s with
  | c :: s' =>
      if is_digit c
      then digits_value (10 * acc + (Z.of_nat (nat_of_ascii c) - 48)) s'
      else acc
  | [] => acc
  end.

(** [atoi]: white space, an optional sign, digits.  [None] when the value
    is not representable as an [int] (the behaviour is then undefined). *)
Definition atoi (s : text) : option Z :=
  let s := skip_spaces s in
  let '(negative, s) :=
    match s with
    | c :: s' =>
        if Ascii.eqb c "-" then (true, s')
        else if Ascii.eqb c "+" then (false, s')
        else (false, s)
    | [] => (false, s)
    end in
  let v := digits_value 0 s in
  let v := if negative then - v else v in
  if (INT_MIN <=? v) && (v <=? INT_MAX) then Some v else None.

Section StdString.

(** The largest [size_t]. *)
Variable SIZE_MAX : Z.

Definition npos : Z := SIZE_MAX.

Definition to_size_t (z : Z) : Z := z mod (SIZE_MAX + 1).

Definition position (r : option nat) : Z :=
  match r with Some i => Z.of_nat i | None => npos end.

(** [s.rfind (c)]. *)
Definition rfind (c : ascii) (s : text) : Z :=
  position (find_last (Ascii.eqb c) s).

(** [s.find_last_not_of (chars, pos)]: the search covers the positions up
    to [pos], and to the last character at most. *)
Definition find_last_not_of (chars : text) (s : text) (pos : Z) : Z :=
  position (find_last (fun c => negb (is_in chars c))
              (firstn (Z.to_nat (Z.min pos (size s - 1) + 1)) s)).

(** [s.substr (pos, len)]: the characters from [pos], [len] of them or as
    many as there are; [None]: [std::out_of_range] is thrown. *)
Definition substr (s : text) (pos len : Z) : option text :=
  if pos <=? size s
  then Some (firstn (Z.to_nat (Z.min len (size s - pos)))
               (skipn (Z.to_nat pos) s))
  else None.

(** [s.resize (n)]. *)
Definition resize (s : text) (n : Z) : text :=
  firstn (Z.to_nat n) s ++ repeat zero (Z.to_nat n - length s).

(** The text of the entry is read with [gtk_entry_get_text] and the result
    is stored with [gtk_entry_set_text]; [format n] is the text that
    [g_strdup_printf (format, n)] builds.  [None]: the behaviour is
    undefined ([atoi] out of range, overflow of [int]) or an exception
    leaves the function. *)
Definition IncrementFileName (format : Z -> text) (name : text)
  : option text :=
  (* Step 1 *)
  let dotPos := rfind "." name in
  let dotPos := if dotPos =? npos then size name else dotPos in
  (* Step 2 *)
  let numPos :=
    find_last_not_of decimal_digits name (to_size_t (dotPos - 1)) in
  let numPos := if numPos =? npos then dotPos else to_size_t (numPos + 1) in
  let fileNum :=
    if numPos =? dotPos then Some 1
    else
      match substr name numPos (to_size_t (dotPos - numPos)) with
      | Some number =>
          match atoi number with
          | Some n => if n + 1 <=? INT_MAX then Some (n + 1) else None
          | None => None
          end
      | None => None
      end in
  (* Step 3 *)
  match fileNum, substr name 0 numPos,
        substr name dotPos (to_size_t (size name - dotPos)) with
  | Some fileNum, Some front, Some back =>
      Some (front ++ format fileNum ++ back)
  | _, _, _ => None
  end.

Definition ReplaceFileExtension (newExtension : text) (name : text) : text :=
  (* Step 1 *)
  let dotPos := rfind "." name in
  let dotPos := if dotPos =? npos then size name else dotPos in
  (* Step 2 *)
  resize name dotPos ++ "."%char :: newExtension.

(** *** Searching a string *)

Lemma find_last_app p pre post :
  find_last p (pre ++ post) =
  match find_last p post with
  | Some i => Some (length pre + i)%nat
  | None => find_last p pre
  end.
Proof.
  induction pre as [| c pre IH]; simpl.
  - destruct (find_last p post); reflexivity.
  - rewrite IH. destruct (find_last p post); reflexivity.
Qed.

Lemma find_last_none p s :
  Forall (fun c => p c = false) s -> find_last p s = None.
Proof.
  induction 1 as [| c s Hc _ IH]; simpl; [reflexivity |].
  rewrite IH, Hc. reflexivity.
Qed.

Lemma find_last_snoc p front c rest :
  p c = true -> Forall (fun c => p c = false) rest ->
  find_last p ((front ++ [c]) ++ rest) = Some (length front).
Proof.
  intros Hc Hrest. rewrite <- app_assoc, find_last_app. simpl.
  rewrite (find_last_none _ _ Hrest), Hc. f_equal. lia.
Qed.

Definition dot : ascii := "."%char.

Lemma no_dot s :
  ~ In dot s -> Forall (fun c => Ascii.eqb dot c = false) s.
Proof.
  intros Hs. apply Forall_forall. intros c Hc. apply Ascii.eqb_neq.
  intros <-. contradiction.
Qed.

(** A base name and what follows it: nothing (and then the base has no
    dot), or a dot and an extension without dots. *)
Definition ends (base suffix : text) : Prop :=
  (suffix = [] /\ ~ In dot base) \/
  (exists ext, suffix = dot :: ext /\ ~ In dot ext).

(** Step 1 of both functions. *)
Lemma dot_position base suffix :
  ends base suffix -> size (base ++ suffix) < npos ->
  (if rfind dot (base ++ suffix) =? npos
   then size (base ++ suffix) else rfind dot (base ++ suffix))
  = size base.
Proof.
  unfold rfind, size. intros [[-> Hbase] | (ext & -> & Hext)] Hsize.
  - rewrite app_nil_r. rewrite (find_last_none _ _ (no_dot _ Hbase)).
    simpl. rewrite Z.eqb_refl. reflexivity.
  - rewrite find_last_app. simpl.
    rewrite (find_last_none _ _ (no_dot _ Hext)). simpl.
    rewrite length_app in Hsize. simpl in Hsize.
    rewrite Nat.add_0_r.
    destruct (Z.eqb_spec (Z.of_nat (length base)) npos); [lia | reflexivity].
Qed.

Lemma resize_prefix base suffix :
  resize (base ++ suffix) (size base) = base.
Proof.
  unfold resize, size. rewrite Nat2Z.id, take_app_length, length_app.
  replace (length base - (length base + length suffix))%nat with 0%nat by lia.
  apply app_nil_r.
Qed.

Lemma ReplaceFileExtension_ends new base suffix :
  ends base suffix -> size (base ++ suffix) < npos ->
  ReplaceFileExtension new (base ++ suffix) = base ++ dot :: new.
Proof.
  intros Hends Hsize. unfold ReplaceFileExtension.
  fold dot. rewrite (dot_position _ _ Hends Hsize), resize_prefix.
  reflexivity.
Qed.

(** X13: [ReplaceFileExtension] replaces what follows the last dot of the
    name, or appends a dot and the extension when the name has no dot; and
    when the new extension has no dot itself, replacing the extension a
    second time gives what replacing it once with the second extension
    gives. *)
Theorem replace_extension new1 new2 base suffix :
  ends base suffix -> size (base ++ suffix) < npos ->
  ReplaceFileExtension new1 (base ++ suffix) = base ++ dot :: new1 /\
  (~ In dot new1 -> size (base ++ dot :: new1) < npos ->
   ReplaceFileExtension new2 (ReplaceFileExtension new1 (base ++ suffix))
   = ReplaceFileExtension new2 (base ++ suffix)).
Proof.
  intros Hends Hsize.
  rewrite !(ReplaceFileExtension_ends _ _ _ Hends Hsize).
  split; [reflexivity |]. intros Hnew Hsize'.
  apply ReplaceFileExtension_ends; [| exact Hsize'].
  right. exists new1. split; [reflexivity | exact Hnew].
Qed.

(** *** Numbers in file names *)

Lemma digit_plain c :
  is_digit c = true ->
  isspace c = false /\ Ascii.eqb c "-" = false /\ Ascii.eqb c "+" = false /\
  c <> dot /\ 0 <= Z.of_nat (nat_of_ascii c) - 48 <= 9.
Proof.
  destruct c as [[] [] [] [] [] [] [] []]; intros H;
    try discriminate H; vm_compute; repeat split; congruence.
Qed.

Definition all_digits (s : text) : Prop :=
  Forall (fun c => is_digit c = true) s.

Lemma all_digits_no_dot s : all_digits s -> ~ In dot s.
Proof.
  intros Hs Hin. unfold all_digits in Hs. rewrite Forall_forall in Hs.
  apply Hs in Hin. discriminate Hin.
Qed.

Lemma all_digits_not_found s :
  all_digits s ->
  Forall (fun c => negb (is_in decimal_digits c) = false) s.
Proof.
  apply Forall_impl. intros c Hc. unfold is_digit in Hc. rewrite Hc.
  reflexivity.
Qed.

Lemma digits_value_nonneg s : forall acc, 0 <= acc -> 0 <= digits_value acc s.
Proof.
  induction s as [| c s IH]; intros acc Hacc; simpl; [exact Hacc |].
  destruct (is_digit c) eqn:Hc; [| exact Hacc].
  apply IH. destruct (digit_plain c Hc) as (_ & _ & _ & _ & Hv). lia.
Qed.

Lemma atoi_digits s :
  all_digits s -> digits_value 0 s <= INT_MAX ->
  atoi s = Some (digits_value 0 s).
Proof.
  intros Hs Hmax. pose proof (digits_value_nonneg s 0 ltac:(lia)) as Hnn.
  unfold atoi.
  assert (Hplain : skip_spaces s = s /\
            match s with
            | c :: s' =>
                if Ascii.eqb c "-" then (true, s')
                else if Ascii.eqb c "+" then (false, s') else (false, s)
            | [] => (false, s)
            end = (false, s)).
  { destruct Hs as [| c s Hc Hs]; [split; reflexivity |].
    destruct (digit_plain c Hc) as (Hsp & Hminus & Hplus & _).
    simpl. rewrite Hsp, Hminus, Hplus. split; reflexivity. }
  destruct Hplain as [-> ->].
  replace (INT_MIN <=? digits_value 0 s) with true
    by (symmetry; apply Z.leb_le; unfold INT_MIN; lia).
  replace (digits_value 0 s <=? INT_MAX) with true
    by (symmetry; apply Z.leb_le; exact Hmax).
  reflexivity.
Qed.

Lemma substr_middle pre mid post len :
  length mid = Z.to_nat len \/ (post = [] /\ (length mid <= Z.to_nat len)%nat) ->
  substr (pre ++ mid ++ post) (size pre) len = Some mid.
Proof.
  intros Hlen. unfold substr, size.
  rewrite length_app, Nat2Z.inj_add.
  replace (Z.of_nat (length pre) <=? Z.of_nat (length pre) + _) with true
    by (symmetry; apply Z.leb_le; lia).
  rewrite Nat2Z.id, drop_app_length. f_equal.
  rewrite length_app.
  replace (Z.to_nat (Z.min len (Z.of_nat (length pre)
                                + Z.of_nat (length mid + length post)
                                - Z.of_nat (length pre))))
    with (length mid)
    by (destruct Hlen as [Hlen | [-> Hlen]]; simpl length; lia).
  apply take_app_length.
Qed.

Lemma to_size_t_small z : 0 <= z <= SIZE_MAX -> to_size_t z = z.
Proof. intros Hz. unfold to_size_t. apply Z.mod_small. lia. Qed.

Lemma to_size_t_neg z :
  0 < z <= SIZE_MAX + 1 -> to_size_t (- z) = SIZE_MAX + 1 - z.
Proof.
  intros Hz. unfold to_size_t. symmetry.
  apply Z.mod_unique with (q := -1); lia.
Qed.

(** Step 2, when a character that is not a digit precedes the digits. *)
Lemma number_position front c digits suffix pos :
  is_digit c = false -> all_digits digits ->
  Z.min pos (size ((front ++ [c]) ++ digits ++ suffix) - 1) + 1
  = size ((front ++ [c]) ++ digits) ->
  find_last_not_of decimal_digits ((front ++ [c]) ++ digits ++ suffix) pos
  = size front.
Proof.
  intros Hc Hdigits Hpos.
  unfold find_last_not_of. rewrite Hpos. unfold size at 1.
  rewrite Nat2Z.id.
  rewrite (app_assoc (front ++ [c])), take_app_length.
  rewrite find_last_snoc;
    [reflexivity
    | unfold is_digit in Hc; rewrite Hc; reflexivity
    | apply all_digits_not_found; exact Hdigits].
Qed.

(** Step 2, when only digits precede the dot. *)
Lemma number_missing digits suffix pos :
  all_digits digits ->
  Z.min pos (size (digits ++ suffix) - 1) + 1 <= size digits ->
  find_last_not_of decimal_digits (digits ++ suffix) pos = npos.
Proof.
  intros Hdigits Hpos. unfold find_last_not_of.
  rewrite find_last_none; [reflexivity |].
  apply all_digits_not_found.
  rewrite take_app_le by (unfold size in *; lia).
  unfold all_digits in *. apply Forall_take. exact Hdigits.
Qed.


(** X15: a name whose part before the extension consists of digits only is
    not incremented: the formatted number 1 is inserted after the digits
    ("123.bmp" becomes "1231.bmp" with the format "%d"). *)
Theorem increment_numeric_name format digits suffix :
  all_digits digits -> ends digits suffix ->
  (digits = [] -> suffix = []) ->
  size (digits ++ suffix) < npos ->
  IncrementFileName format (digits ++ suffix)
  = Some (digits ++ format 1 ++ suffix).
Proof.
  intros Hdigits Hends Hempty Hsize.
  unfold IncrementFileName. fold dot.
  rewrite (dot_position _ _ Hends Hsize).
  assert (Hlen : size (digits ++ suffix) = size digits + size suffix)
    by (unfold size; rewrite length_app; lia).
  assert (H0 : 0 <= size digits /\ 0 <= size suffix) by (unfold size; lia).
  rewrite Hlen in Hsize.
  rewrite number_missing; [| exact Hdigits |].
  2:{ destruct digits as [| d digits].
      - rewrite (Hempty eq_refl). change (size ([] ++ [])) with 0.
        change (size []) with 0. lia.
      - assert (1 <= size (d :: digits)) by (unfold size; simpl length; lia).
        rewrite to_size_t_small by (unfold npos in *; lia). lia. }
  rewrite !Z.eqb_refl.
  rewrite (substr_middle [] digits suffix)
    by (left; unfold size; rewrite Nat2Z.id; reflexivity).
  rewrite Hlen.
  replace (size digits + size suffix - size digits) with (size suffix) by lia.
  rewrite to_size_t_small by (unfold npos in *; lia).
  rewrite <- (app_nil_r suffix) at 1.
  rewrite (substr_middle digits suffix [])
    by (left; unfold size; rewrite Nat2Z.id; reflexivity).
  reflexivity.
Qed.

(** X16: a name that begins with its only dot (front ++ [c] is the name up
    to its trailing digits, [c] is the dot itself or another character
    that is not a digit): the position before the dot wraps around, the
    digits at the end of the name are taken for the number, and the whole
    name is appended after it (".bmp" becomes ".bmp1.bmp" with the format
    "%d"). *)
Theorem increment_leading_dot format body front c digits :
  dot :: body = front ++ [c] -> is_digit c = false ->
  ~ In dot body -> all_digits digits ->
  size (dot :: body ++ digits) < npos ->
  digits_value 0 digits < INT_MAX ->
  IncrementFileName format (dot :: body ++ digits)
  = Some ((dot :: body) ++ format (digits_value 0 digits + 1)
          ++ dot :: body ++ digits).
Proof.
  intros Hhead Hc Hbody Hdigits Hsize Hmax.
  assert (Hends : ends [] (dot :: body ++ digits)).
  { right. exists (body ++ digits). split; [reflexivity |].
    intros Hin. apply in_app_or in Hin. destruct Hin as [Hin | Hin];
      [contradiction | exact (all_digits_no_dot _ Hdigits Hin)]. }
  unfold IncrementFileName. fold dot.
  pose proof (dot_position [] _ Hends Hsize) as Hdot.
  cbn [app] in Hdot. rewrite Hdot. clear Hdot.
  change (size []) with 0. change (0 - 1) with (- (1)).
  assert (Hmaxpos : 0 <= SIZE_MAX) by (unfold npos, size in Hsize; lia).
  rewrite to_size_t_neg by lia.
  change (dot :: body ++ digits) with ((dot :: body) ++ digits) in *.
  rewrite Hhead in *.
  assert (Hlen : size ((front ++ [c]) ++ digits)
                 = size front + 1 + size digits).
  { unfold size. rewrite !length_app. simpl length. lia. }
  assert (H0 : 0 <= size front /\ 0 <= size digits) by (unfold size; lia).
  rewrite Hlen in Hsize. unfold npos in Hsize.
  pose proof (number_position front c digits [] (SIZE_MAX + 1 - 1)
                Hc Hdigits) as Hfound.
  rewrite !app_nil_r in Hfound.
  rewrite !Hfound by (rewrite Hlen; lia). clear Hfound.
  unfold npos.
  destruct (Z.eqb_spec (size front) SIZE_MAX) as [| _]; [lia |].
  rewrite to_size_t_small by lia.
  destruct (Z.eqb_spec (size front + 1) 0) as [| _]; [lia |].
  assert (Hhs : size front + 1 = size (front ++ [c]))
    by (unfold size; rewrite length_app; simpl length; lia).
  rewrite Hhs.
  pose proof (substr_middle (front ++ [c]) digits []
                (to_size_t (0 - size (front ++ [c])))) as Hnumber.
  rewrite app_nil_r in Hnumber. rewrite Hnumber. clear Hnumber.
  2:{ right. split; [reflexivity |].
      rewrite Z.sub_0_l, <- Hhs, to_size_t_neg by lia.
      unfold size in *. lia. }
  rewrite (atoi_digits _ Hdigits) by lia.
  replace (digits_value 0 digits + 1 <=? INT_MAX) with true
    by (symmetry; apply Z.leb_le; lia).
  rewrite (substr_middle [] (front ++ [c]) digits)
    by (left; unfold size; rewrite Nat2Z.id; reflexivity).
  rewrite Z.sub_0_r, to_size_t_small by (rewrite Hlen; lia).
  pose proof (substr_middle [] ((front ++ [c]) ++ digits) []
                (size ((front ++ [c]) ++ digits))) as Hwhole.
  rewrite app_nil_r in Hwhole. cbn [app] in Hwhole.
  change (size []) with 0 in Hwhole. rewrite Hwhole.
  2:{ left. unfold size. rewrite Nat2Z.id. reflexivity. }
  reflexivity.
Qed.

End StdString.

(** *** Concrete names *)

(** The text built by the format "%d". *)
Fixpoint render (fuel : nat) (n : Z) (acc : text) : text :=
  match fuel with
  | O => acc
  | S fuel' =>
      let acc' := ascii_of_nat (Z.to_nat (48 + n mod 10)) :: acc in
      if n <? 10 then acc' else render fuel' (n / 10) acc'
  end.

Definition percent_d (n : Z) : text :=
  if n <? 0 then "-"%char :: render 10 (- n) [] else render 10 n [].

Definition SIZE_MAX_64 : Z := 2 ^ 64 - 1.

Example increment_image_9 :
  IncrementFileName SIZE_MAX_64 percent_d
    ["i"; "m"; "g"; "_"; "9"; "."; "b"; "m"; "p"]%char
  = Some ["i"; "m"; "g"; "_"; "1"; "0"; "."; "b"; "m"; "p"]%char.
Proof. vm_compute. reflexivity. Qed.

Example increment_123 :
  IncrementFileName SIZE_MAX_64 percent_d ["1"; "2"; "3"; "."; "b"]%char
  = Some ["1"; "2"; "3"; "1"; "."; "b"]%char.
Proof. vm_compute. reflexivity. Qed.

Example increment_hidden :
  IncrementFileName SIZE_MAX_64 percent_d ["."; "b"; "m"; "p"]%char
  = Some ["."; "b"; "m"; "p"; "1"; "."; "b"; "m"; "p"]%char.
Proof. vm_compute. reflexivity. Qed.

Lemma replace_extension_witness :
  ReplaceFileExtension SIZE_MAX_64 ["j"; "p"; "g"]%char
    (["i"; "m"; "g"] ++ ["."; "b"; "m"; "p"])%char
  = (["i"; "m"; "g"] ++ dot :: ["j"; "p"; "g"])%char /\
  (~ In dot ["j"; "p"; "g"]%char ->
   size (["i"; "m"; "g"] ++ dot :: ["j"; "p"; "g"])%char < npos SIZE_MAX_64 ->
   ReplaceFileExtension SIZE_MAX_64 ["p"; "n"; "g"]%char
     (ReplaceFileExtension SIZE_MAX_64 ["j"; "p"; "g"]%char
        (["i"; "m"; "g"] ++ ["."; "b"; "m"; "p"])%char)
   = ReplaceFileExtension SIZE_MAX_64 ["p"; "n"; "g"]%char
       (["i"; "m"; "g"] ++ ["."; "b"; "m"; "p"])%char).
Proof.
  apply (replace_extension SIZE_MAX_64 ["j"; "p"; "g"]%char
           ["p"; "n"; "g"]%char ["i"; "m"; "g"]%char
           ["."; "b"; "m"; "p"]%char).
  - right. exists ["b"; "m"; "p"]%char. split; [reflexivity |].
    vm_compute. intuition discriminate.
  - vm_compute. reflexivity.
Defined.


Lemma increment_numeric_name_witness :
  IncrementFileName SIZE_MAX_64 percent_d
    (["1"; "2"; "3"] ++ ["."; "b"])%char
  = Some (["1"; "2"; "3"] ++ percent_d 1 ++ ["."; "b"])%char.
Proof.
  apply (increment_numeric_name SIZE_MAX_64 percent_d ["1"; "2"; "3"]%char
           ["."; "b"]%char).
  - repeat constructor.
  - right. exists ["b"]%char. split; [reflexivity |].
    vm_compute. intuition discriminate.
  - discriminate.
  - vm_compute. reflexivity.
Defined.

Lemma increment_leading_dot_witness :
  IncrementFileName SIZE_MAX_64 percent_d (dot :: ["b"; "m"; "p"] ++ [])%char
  = Some ((dot :: ["b"; "m"; "p"])
          ++ percent_d (digits_value 0 [] + 1)
          ++ dot :: ["b"; "m"; "p"] ++ [])%char.
Proof.
  apply (increment_leading_dot SIZE_MAX_64 percent_d ["b"; "m"; "p"]%char
           ["."; "b"; "m"]%char "p"%char []).
  - reflexivity.
  - reflexivity.
  - vm_compute. intuition discriminate.
  - constructor.
  - vm_compute. reflexivity.
  - vm_compute. reflexivity.
Defined.

End FileNames.

(** ** captureOEM/src/helpers.cpp: PxLComboBox *)

Module ComboBox.

Section Widget.

(** The text of a row of the GtkComboBoxText. *)
Variable Text : Type.

(** [class PxLComboBox]: [m_values], and the rows of the widget it wraps
    ([m_gtkComboBox]). *)
Record PxLComboBox := {
  m_values : list Z;       (* std::vector<int> *)
  rows : list Text
}.

(** [v.insert (v.begin () + pos, x)] and
    [gtk_combo_box_text_insert_text (combo, pos, text)]: a position past
    the end appends. *)
Definition insert_at {A} (pos : nat) (x : A) (l : list A) : list A :=
  firstn pos l ++ x :: skipn pos l.

(** [v.erase (v.begin () + pos)] and
    [gtk_combo_box_text_remove (combo, pos)]. *)
Definition remove_at {A} (pos : nat) (l : list A) : list A :=
  firstn pos l ++ skipn (S pos) l.

(** Where the loop of [addItem] ends. *)
Inductive Slot :=
| Present                  (* [*it == itemValue]: return *)
| Before (pos : nat)       (* [*it > itemValue]: insert here *)
| AtEnd (pos : nat).       (* the loop ran to the end *)

Fixpoint addItem_loop (values : list Z) (itemValue : Z) (pos : nat) : Slot :=
  match values with
  | [] => AtEnd pos
  | x :: rest =>
      if x <? itemValue then addItem_loop rest itemValue (S pos)
      else if x =? itemValue then Present
      else Before pos
  end.

Definition addItem (itemValue : Z) (itemText : Text) (cb : PxLComboBox)
  : PxLComboBox :=
  match addItem_loop (m_values cb) itemValue 0 with
  | Present => cb
  | Before pos =>
      {| m_values := insert_at pos itemValue (m_values cb);
         rows := insert_at pos itemText (rows cb) |}
  | AtEnd pos =>
      {| m_values := m_values cb ++ [itemValue];
         rows := insert_at pos itemText (rows cb) |}
  end.

(** The loops of [removeItem] and [makeActive]: the position of the first
    occurrence, or [None] when the loop runs to the end. *)
Fixpoint find_value (values : list Z) (itemValue : Z) (pos : nat)
  : option nat :=
  match values with
  | [] => None
  | x :: rest =>
      if x =? itemValue then Some pos else find_value rest itemValue (S pos)
  end.

Definition removeItem (itemValue : Z) (cb : PxLComboBox) : PxLComboBox :=
  match find_value (m_values cb) itemValue 0 with
  | Some pos =>
      {| m_values := remove_at pos (m_values cb);
         rows := remove_at pos (rows cb) |}
  | None => cb
  end.

Definition removeAll (cb : PxLComboBox) : PxLComboBox :=
  {| m_values := []; rows := [] |}.

(** The position given to [gtk_combo_box_set_active], or [None] when the
    function is not called. *)
Definition makeActive (itemValue : Z) (cb : PxLComboBox) : option nat :=
  find_value (m_values cb) itemValue 0.

(** [m_values[active]], where [active] is what [gtk_combo_box_get_active]
    returns (-1 when no row is active); [None]: the index is outside the
    vector. *)
Definition getSelectedItem (active : Z) (cb : PxLComboBox) : option Z :=
  if (0 <=? active) && (active <? Z.of_nat (length (m_values cb)))
  then nth_error (m_values cb) (Z.to_nat active)
  else None.

(** The rows of the widget, each with its value. *)
Definition items (cb : PxLComboBox) : list (Z * Text) :=
  combine (m_values cb) (rows cb).

Definition aligned (cb : PxLComboBox) : Prop :=
  length (rows cb) = length (m_values cb).

Definition increasing (values : list Z) : Prop := StronglySorted Z.lt values.

(** *** Lemmas *)

Lemma addItem_loop_spec values v :
  forall pos,
    match addItem_loop values v pos with
    | Present => In v values
    | Before p =>
        exists pre x post,
          values = pre ++ x :: post /\ p = (pos + length pre)%nat /\
          Forall (fun y => y < v) pre /\ v < x
    | AtEnd p =>
        p = (pos + length values)%nat /\ Forall (fun y => y < v) values
    end.
Proof.
  induction values as [| x rest IH]; intros pos; simpl.
  - split; [lia | constructor].
  - destruct (Z.ltb_spec x v) as [Hlt | Hge].
    + specialize (IH (S pos)).
      destruct (addItem_loop rest v (S pos)) as [| p | p].
      * right. exact IH.
      * destruct IH as (pre & y & post & -> & -> & Hpre & Hy).
        exists (x :: pre), y, post. simpl.
        repeat split; [lia | constructor; assumption | exact Hy].
      * destruct IH as [-> Hall]. split; [lia | constructor; assumption].
    + destruct (Z.eqb_spec x v) as [-> | Hne].
      * left. reflexivity.
      * exists nil, x, rest. simpl. repeat split; [lia | constructor | lia].
Qed.

(** What [addItem] does when the value is not found: the value goes after
    the values smaller than it, the text goes to the same position. *)
Lemma addItem_inserts v t cb :
  addItem_loop (m_values cb) v 0 <> Present ->
  exists pre post,
    m_values cb = pre ++ post /\
    Forall (fun y => y < v) pre /\
    match post with [] => True | x :: _ => v < x end /\
    m_values (addItem v t cb) = pre ++ v :: post /\
    rows (addItem v t cb) = insert_at (length pre) t (rows cb).
Proof.
  intros Hslot. unfold addItem.
  pose proof (addItem_loop_spec (m_values cb) v 0) as Hspec.
  destruct (addItem_loop (m_values cb) v 0) as [| p | p].
  - contradiction.
  - destruct Hspec as (pre & x & post & Hvalues & -> & Hpre & Hx).
    exists pre, (x :: post). simpl. rewrite Hvalues.
    repeat split; try assumption.
    unfold insert_at. rewrite take_app_length, drop_app_length. reflexivity.
  - destruct Hspec as [-> Hall].
    exists (m_values cb), nil. simpl. rewrite app_nil_r.
    repeat split; assumption.
Qed.

Lemma increasing_insert pre post v :
  increasing (pre ++ post) ->
  Forall (fun y => y < v) pre ->
  match post with [] => True | x :: _ => v < x end ->
  increasing (pre ++ v :: post) /\ Forall (fun y => v < y) post.
Proof.
  unfold increasing. induction pre as [| a pre IH]; simpl; intros Hs Hpre Hx.
  - assert (Hpost : Forall (fun y => v < y) post).
    { destruct post as [| x post]; [constructor |].
      apply StronglySorted_inv in Hs. destruct Hs as [_ Hs].
      constructor; [exact Hx |].
      eapply Forall_impl; [| exact Hs]. intros y Hy. simpl in Hy. lia. }
    split; [constructor; assumption | exact Hpost].
  - apply StronglySorted_inv in Hs. destruct Hs as [Hs Ha].
    apply Forall_cons_1 in Hpre. destruct Hpre as [Hav Hpre].
    destruct (IH Hs Hpre Hx) as [Hs' Hpost].
    split; [| exact Hpost].
    constructor; [exact Hs' |].
    apply Forall_app in Ha. destruct Ha as [Ha1 Ha2].
    apply Forall_app. split; [exact Ha1 |].
    constructor; [exact Hav | exact Ha2].
Qed.

Lemma combine_app_aligned {A B} (l1 l2 : list A) (r1 r2 : list B) :
  length l1 = length r1 ->
  combine (l1 ++ l2) (r1 ++ r2) = combine l1 r1 ++ combine l2 r2.
Proof.
  revert r1. induction l1 as [| a l1 IH]; intros [| b r1] Hlen;
    try discriminate Hlen; simpl; [reflexivity |].
  f_equal. apply IH. simpl in Hlen. lia.
Qed.

Lemma find_value_skips pre v post :
  forall pos,
    Forall (fun y => y <> v) pre ->
    find_value (pre ++ v :: post) v pos = Some (pos + length pre)%nat.
Proof.
  induction pre as [| a pre IH]; intros pos Hpre; simpl.
  - rewrite Z.eqb_refl. f_equal. lia.
  - apply Forall_cons_1 in Hpre. destruct Hpre as [Ha Hpre].
    destruct (Z.eqb_spec a v); [contradiction |].
    rewrite IH by exact Hpre. f_equal. lia.
Qed.

Lemma find_value_spec values v :
  forall pos,
    match find_value values v pos with
    | Some p => exists k, p = (pos + k)%nat /\ nth_error values k = Some v
    | None => ~ In v values
    end.
Proof.
  induction values as [| x rest IH]; intros pos; simpl.
  - intros [].
  - destruct (Z.eqb_spec x v) as [-> | Hne].
    + exists 0%nat. split; [lia | reflexivity].
    + specialize (IH (S pos)). destruct (find_value rest v (S pos)).
      * destruct IH as (k & -> & Hk). exists (S k). split; [lia | exact Hk].
      * intros [Heq | Hin]; [contradiction | exact (IH Hin)].
Qed.

(** *** Theorems *)

(** X17: [addItem] keeps the box in order.  When the values are strictly
    increasing and every value has its row, they still are and do after
    [addItem]; a value that is present is not added again (the box is
    unchanged); a new value is inserted with its text after the items with
    smaller values and before the items with larger values, and the other
    items keep their texts. *)
Theorem add_item_ordered v t cb :
  aligned cb -> increasing (m_values cb) ->
  aligned (addItem v t cb) /\ increasing (m_values (addItem v t cb)) /\
  (In v (m_values cb) -> addItem v t cb = cb) /\
  (~ In v (m_values cb) ->
   exists before after,
     items cb = before ++ after /\
     items (addItem v t cb) = before ++ (v, t) :: after /\
     Forall (fun i => fst i < v) before /\
     Forall (fun i => v < fst i) after).
Proof.
  intros Hal Hinc.
  assert (Hslot : addItem_loop (m_values cb) v 0 = Present \/
                  addItem_loop (m_values cb) v 0 <> Present)
    by (destruct (addItem_loop _ _ _);
        [left; reflexivity | right; discriminate ..]).
  destruct Hslot as [Hslot | Hslot].
  - (* the value is present *)
    assert (Hsame : addItem v t cb = cb)
      by (unfold addItem; rewrite Hslot; reflexivity).
    pose proof (addItem_loop_spec (m_values cb) v 0) as Hin.
    rewrite Hslot in Hin. rewrite Hsame.
    repeat split; try assumption. intros Hnot. contradiction.
  - (* the value is inserted *)
    destruct (addItem_inserts v t cb Hslot)
      as (pre & post & Hv & Hpre & Hx & Hv' & Hr').
    rewrite Hv in Hinc.
    destruct (increasing_insert pre post v Hinc Hpre Hx) as [Hinc' Hpost].
    unfold aligned, items in *. rewrite Hv', Hr'. rewrite Hv in Hal |- *.
    rewrite length_app in Hal.
    assert (Hrows : rows cb = firstn (length pre) (rows cb)
                              ++ skipn (length pre) (rows cb))
      by (symmetry; apply firstn_skipn).
    assert (Hlen : length (firstn (length pre) (rows cb)) = length pre)
      by (rewrite length_take; lia).
    assert (Hnot : ~ In v (pre ++ post)).
    { intros Hin. apply in_app_or in Hin.
      rewrite Forall_forall in Hpre, Hpost.
      destruct Hin as [Hin | Hin];
        [apply Hpre in Hin | apply Hpost in Hin]; lia. }
    split; [| split; [exact Hinc' | split; [intros Hin; contradiction |]]].
    + unfold insert_at. rewrite !length_app. simpl.
      rewrite Hlen, length_drop. lia.
    + intros _.
      exists (combine pre (firstn (length pre) (rows cb))),
             (combine post (skipn (length pre) (rows cb))).
      split; [| split; [| split]].
      * rewrite Hrows at 1. apply combine_app_aligned. symmetry. exact Hlen.
      * unfold insert_at.
        rewrite (combine_app_aligned pre (v :: post))
          by (symmetry; exact Hlen).
        reflexivity.
      * apply Forall_forall. intros [x r] Hin. apply in_combine_l in Hin.
        rewrite Forall_forall in Hpre. exact (Hpre _ Hin).
      * apply Forall_forall. intros [x r] Hin. apply in_combine_l in Hin.
        rewrite Forall_forall in Hpost. exact (Hpost _ Hin).
Qed.

(** X18: removing a value right after adding it restores the box, values
    and rows, when the value was not in the box and every value has its
    row. *)
Theorem remove_added_item v t cb :
  aligned cb -> ~ In v (m_values cb) ->
  removeItem v (addItem v t cb) = cb.
Proof.
  intros Hal Hnot.
  destruct (addItem_inserts v t cb) as (pre & post & Hv & Hpre & _ & Hv' & Hr').
  { pose proof (addItem_loop_spec (m_values cb) v 0) as Hspec.
    intros Hslot. rewrite Hslot in Hspec. contradiction. }
  unfold removeItem. rewrite Hv'.
  rewrite (find_value_skips pre v post 0).
  2:{ eapply Forall_impl; [| exact Hpre]. simpl. intros y Hy. lia. }
  simpl Nat.add. rewrite Hr'.
  unfold aligned in Hal. rewrite Hv, length_app in Hal.
  destruct cb as [values rws]. simpl in *. f_equal.
  - unfold remove_at. rewrite take_app_length.
    change (pre ++ v :: post) with (pre ++ [v] ++ post).
    rewrite app_assoc.
    replace (S (length pre)) with (length (pre ++ [v]))
      by (rewrite length_app; simpl; lia).
    rewrite drop_app_length. symmetry. exact Hv.
  - unfold remove_at, insert_at.
    assert (Hlen : length (firstn (length pre) rws) = length pre)
      by (rewrite length_take; lia).
    rewrite <- Hlen at 1. rewrite take_app_length.
    change (firstn (length pre) rws ++ t :: skipn (length pre) rws)
      with (firstn (length pre) rws ++ [t] ++ skipn (length pre) rws).
    rewrite app_assoc.
    replace (S (length pre)) with (length (firstn (length pre) rws ++ [t]))
      by (rewrite length_app, Hlen; simpl; lia).
    rewrite drop_app_length. apply firstn_skipn.
Qed.

(** X19: [makeActive] of a value of the box activates a row, and when the
    widget reports that row as the active one, [getSelectedItem] returns
    the value. *)
Theorem make_active_selects v cb :
  In v (m_values cb) ->
  exists pos,
    makeActive v cb = Some pos /\
    getSelectedItem (Z.of_nat pos) cb = Some v.
Proof.
  intros Hin. unfold makeActive, getSelectedItem.
  pose proof (find_value_spec (m_values cb) v 0) as Hspec.
  destruct (find_value (m_values cb) v 0) as [p |]; [| contradiction].
  destruct Hspec as (k & -> & Hk). simpl Nat.add.
  exists k. split; [reflexivity |].
  assert (Hlt : (k < length (m_values cb))%nat).
  { apply nth_error_Some. rewrite Hk. discriminate. }
  replace (0 <=? Z.of_nat k) with true by (symmetry; apply Z.leb_le; lia).
  replace (Z.of_nat k <? Z.of_nat (length (m_values cb))) with true
    by (symmetry; apply Z.ltb_lt; lia).
  simpl. rewrite Nat2Z.id. exact Hk.
Qed.

End Widget.

(** *** A box of three modes *)

Definition demo_box : PxLComboBox Z :=
  {| m_values := [0; 1; 4]; rows := [100; 101; 104] |}.

Example demo_add :
  addItem Z 2 102 demo_box
  = {| m_values := [0; 1; 2; 4]; rows := [100; 101; 102; 104] |} /\
  addItem Z 7 107 demo_box
  = {| m_values := [0; 1; 4; 7]; rows := [100; 101; 104; 107] |} /\
  addItem Z 1 999 demo_box = demo_box /\
  removeItem Z 1 demo_box = {| m_values := [0; 4]; rows := [100; 104] |}.
Proof. repeat split. Qed.

Lemma add_item_ordered_witness :
  aligned Z (addItem Z 2 102 demo_box) /\
  increasing (m_values Z (addItem Z 2 102 demo_box)) /\
  (In 2 (m_values Z demo_box) -> addItem Z 2 102 demo_box = demo_box) /\
  (~ In 2 (m_values Z demo_box) ->
   exists before after,
     items Z demo_box = before ++ after /\
     items Z (addItem Z 2 102 demo_box) = before ++ (2, 102) :: after /\
     Forall (fun i => fst i < 2) before /\
     Forall (fun i => 2 < fst i) after).
Proof.
  apply (add_item_ordered Z 2 102 demo_box).
  - reflexivity.
  - repeat constructor.
Defined.

Lemma remove_added_item_witness :
  removeItem Z 2 (addItem Z 2 102 demo_box) = demo_box.
Proof.
  apply (remove_added_item Z 2 102 demo_box).
  - reflexivity.
  - vm_compute. intuition discriminate.
Defined.

Lemma make_active_selects_witness :
  exists pos,
    makeActive Z 4 demo_box = Some pos /\
    getSelectedItem Z (Z.of_nat pos) demo_box = Some 4.
Proof.
  apply (make_active_selects Z 4 demo_box).
  vm_compute. auto.
Defined.

End ComboBox.
